(** * sshell: tokenizer, pipeline parser, descriptor wiring and process
      orchestration of [sshell.c], as a shallow embedding.

    C strings are [string]s (the terminating NUL is the end of the string),
    arrays are lists with their capacity written out, the kernel's
    descriptor table and the file system are finite maps, and every
    function that can fail or stop the shell returns an [outcome].  The
    heap is not modelled and [malloc] succeeds; the one call of [free] that
    the parser makes is on an automatic array, and is an outcome of its
    own. *)

From Stdlib Require Import ZArith Ascii String List Lia Permutation.
From stdpp Require Import base option list gmap strings fin_maps.
Import ListNotations.
Local Open Scope string_scope.
Local Open Scope list_scope.

(** ** Constants of [sshell.c] *)

Definition CMDLINE_MAX : nat := 512.
Definition TOKEN_MAX : nat := 32.
Definition ARG_MAX : nat := 16.
Definition PROCESS_MAX : nat := 8.

Definition STDIN_FILENO : nat := 0.
Definition STDOUT_FILENO : nat := 1.
Definition STDERR_FILENO : nat := 2.

(** ** Section 2 of the source: command line tokenization *)

Definition NUL : ascii := Ascii.zero.
Definition TAB : ascii := "009"%char.

(** [*iter == ' ' || *iter == '\t'] *)
Definition is_blank (c : ascii) : bool :=
  Ascii.eqb c " " || Ascii.eqb c TAB.

(** [case '|': case '>':] of the switch on the first character. *)
Definition is_op_char (c : ascii) : bool :=
  Ascii.eqb c "|" || Ascii.eqb c ">".

(** The loop condition of the [default:] branch:
    [*iter && *iter != ' ' && *iter != '\t' && *iter != '|' && *iter != '>'] *)
Definition is_arg_char (c : ascii) : bool :=
  negb (Ascii.eqb c NUL) && negb (is_blank c) && negb (is_op_char c).

(** The first loop of [read_next_token]: move the iterator to the first
    character that is not a blank. *)
Fixpoint skip_blanks (iter : string) : string :=
  match iter with
  | String c iter' => if is_blank c then skip_blanks iter' else iter
  | EmptyString => iter
  end.

(** The copying loop [*buf++ = *iter++]: the characters copied and the
    position of the iterator after them. *)
Fixpoint copy_arg (iter : string) : string * string :=
  match iter with
  | String c iter' =>
      if is_arg_char c
      then let '(buf, rest) := copy_arg iter' in (String c buf, rest)
      else (EmptyString, iter)
  | EmptyString => (EmptyString, iter)
  end.

(** What one call of [read_next_token] does: it returns [NULL], or it fills
    the buffer and returns the new position, or it writes past the end of
    the [TOKEN_MAX] bytes of the buffer. *)
Inductive scan : Type :=
  | NoToken
  | Token (buf rest : string)
  | Overrun.

(** The buffer receives the characters of the token and a NUL. *)
Definition fits_buffer (buf : string) : bool :=
  (String.length buf <? TOKEN_MAX)%nat.

Definition read_next_token (iter : string) : scan :=
  match skip_blanks iter with
  | EmptyString => NoToken
  | String c iter' =>
      if Ascii.eqb c NUL then NoToken
      else if is_op_char c then
        match iter' with
        | String "&" iter'' => Token (String c "&") iter''
        | _ => Token (String c "") iter'
        end
      else
        let '(buf, rest) := copy_arg iter' in
        if fits_buffer (String c buf) then Token (String c buf) rest
        else Overrun
  end.

(** Result of [read_tokens]: the NULL-terminated array of tokens, or a
    store outside [token_buf] or outside the [CMDLINE_MAX] slots of
    [tokens]. *)
Inductive lexed : Type :=
  | Tokens (toks : list string)
  | LexUndefined.

Definition lexed_cons (t : string) (r : lexed) : lexed :=
  match r with
  | Tokens toks => Tokens (t :: toks)
  | LexUndefined => LexUndefined
  end.

(** The [while] loop of [read_tokens]; [n] is the number of tokens stored so
    far, that is the index [tokens] points at.  Every call of
    [read_next_token] that returns a token consumes a character, so the
    length of the line bounds the number of iterations. *)
Fixpoint read_tokens_from (fuel : nat) (cmdline : string) (n : nat) : lexed :=
  match read_next_token cmdline with
  | NoToken => if (n <? CMDLINE_MAX)%nat then Tokens [] else LexUndefined
  | Overrun => LexUndefined
  | Token buf rest =>
      if (n <? CMDLINE_MAX)%nat then
        match fuel with
        | S fuel' => lexed_cons buf (read_tokens_from fuel' rest (S n))
        | O => LexUndefined
        end
      else LexUndefined
  end.

Definition read_tokens (cmdline : string) : lexed :=
  read_tokens_from (String.length cmdline) cmdline 0.

(** [token[0]], the NUL of an empty string included. *)
Definition first_char (token : string) : ascii :=
  match token with
  | String c _ => c
  | EmptyString => NUL
  end.

(** The tests take [*token_iter]: [None] is the terminating NULL. *)
Definition is_arg (token : option string) : bool :=
  match token with
  | Some t => negb (Ascii.eqb (first_char t) ">") && negb (Ascii.eqb (first_char t) "|")
  | None => false
  end.

Definition is_pipe_token (token : option string) : bool :=
  match token with
  | Some t => Ascii.eqb (first_char t) "|"
  | None => false
  end.

Definition is_out_redirect_token (token : option string) : bool :=
  match token with
  | Some t => Ascii.eqb (first_char t) ">"
  | None => false
  end.

Arguments is_arg : simpl never.
Arguments is_pipe_token : simpl never.
Arguments is_out_redirect_token : simpl never.

(** [redirect_err]: whether the operator token has a second character. *)
Definition redirect_err_of (token : string) : bool :=
  match token with
  | String _ (String c _) => negb (Ascii.eqb c NUL)
  | _ => false
  end.

(** ** The kernel as the shell sees it *)

(** What an open descriptor refers to. *)
Inductive ofile : Type :=
  | Inherited (fd : nat)
  | PipeRead (id : nat)
  | PipeWrite (id : nat)
  | OutFile (path : string).

(** [fdt]: the descriptor table of the shell process.  [fd_limit]: every
    descriptor is below it.  [files]: the regular files and their content,
    by path.  [denied]: the paths that [open] refuses (a directory, a
    missing parent, no permission).  [npipes]: the pipes created so far. *)
Record world : Type := World {
  fdt : gmap nat ofile;
  fd_limit : nat;
  files : gmap string string;
  denied : gset string;
  npipes : nat
}.

Definition is_free (t : gmap nat ofile) (fd : nat) : bool :=
  match t !! fd with
  | None => true
  | Some _ => false
  end.

(** The kernel hands out the lowest descriptor that is not open. *)
Definition lowest_free (t : gmap nat ofile) (limit : nat) : option nat :=
  List.find (is_free t) (seq 0 limit).

(** [pipe(pipe_fds)]: [Some (pipe_fds[0], pipe_fds[1], world)], or [None]
    when two descriptors cannot be had. *)
Definition sys_pipe (w : world) : option (nat * nat * world) :=
  match lowest_free (fdt w) (fd_limit w) with
  | None => None
  | Some rd =>
      let t := <[rd := PipeRead (npipes w)]> (fdt w) in
      match lowest_free t (fd_limit w) with
      | None => None
      | Some wr =>
          Some (rd, wr,
                World (<[wr := PipeWrite (npipes w)]> t) (fd_limit w)
                      (files w) (denied w) (S (npipes w)))
      end
  end.

(** [open(path, O_CREAT | O_WRONLY | O_TRUNC, 0644)]: the file exists and
    is empty afterwards. *)
Definition sys_open (path : string) (w : world) : option (nat * world) :=
  if decide (path ∈ denied w) then None
  else
    match lowest_free (fdt w) (fd_limit w) with
    | None => None
    | Some fd =>
        Some (fd,
              World (<[fd := OutFile path]> (fdt w)) (fd_limit w)
                    (<[path := EmptyString]> (files w)) (denied w) (npipes w))
    end.

(** ** Section 3 of the source: command line parsing *)

Record process : Type := Process {
  argv : list string;
  fd_in : nat;
  fd_out : nat;
  fd_err : nat
}.

(** The ways [parse_command] returns -1.  [BlankLine] is the plain
    [return -1] on a line without tokens; the others go through [error]. *)
Inductive parse_error : Type :=
  | BlankLine
  | MissingCommand
  | TooManyArguments
  | MissingOutputFile
  | CannotOpenOutputFile
  | MisplacedRedirection.

(** What [error] prints after ["Error: "]. *)
Definition diagnostic (e : parse_error) : option string :=
  match e with
  | BlankLine => None
  | MissingCommand => Some "missing command"
  | TooManyArguments => Some "too many process arguments"
  | MissingOutputFile => Some "no output file"
  | CannotOpenOutputFile => Some "cannot open output file"
  | MisplacedRedirection => Some "mislocated output redirection"
  end.

(** How a piece of the code ends.  [Ok]: it completes, with a result, and
    the code after it goes on.  [Fail]: the function returns -1.
    [Exited]: the shell has left through [exit_with_sys_err].
    [Undefined]: a store outside an array.  [InvalidFree]: a call of
    [free] on an object that [malloc] did not return, which is undefined
    behaviour as well; [a] and [w] are what the function had built and the
    world when it made the call. *)
Inductive outcome (A : Type) : Type :=
  | Ok (a : A) (w : world)
  | Fail (e : parse_error) (w : world)
  | Exited
  | Undefined
  | InvalidFree (a : A) (w : world).
Arguments Ok {A} a w.
Arguments Fail {A} e w.
Arguments Exited {A}.
Arguments Undefined {A}.
Arguments InvalidFree {A} a w.

(** The [while (is_arg( *token_iter))] loop of [read_argv], from index [i]:
    [None] when [i] reaches [ARG_MAX] with an argument still to store. *)
Fixpoint read_argv_from (token_iter : list string) (i : nat)
  : option (list string * list string) :=
  match token_iter with
  | t :: token_iter' =>
      if is_arg (Some t) then
        if (i =? ARG_MAX)%nat then None
        else
          match read_argv_from token_iter' (S i) with
          | Some (args, rest) => Some (t :: args, rest)
          | None => None
          end
      else Some ([], token_iter)
  | [] => Some ([], [])
  end.

Inductive argv_result : Type :=
  | Argv (args rest : list string)
  | ArgvError (e : parse_error).

Definition read_argv (token_iter : list string) : argv_result :=
  match read_argv_from token_iter 0 with
  | None => ArgvError TooManyArguments
  | Some ([], _) => ArgvError MissingCommand
  | Some (args, rest) => Argv args rest
  end.

(** [pipe_procs src dest redirect_err]: the descriptors given to [src]
    (output, error) and to [dest] (input). *)
Definition pipe_procs (redirect_err : bool) (w : world)
  : option (nat * nat * nat * world) :=
  match sys_pipe w with
  | None => None
  | Some (rd, wr, w') =>
      Some (wr, if redirect_err then wr else STDERR_FILENO, rd, w')
  end.

(** [redirect_proc_out proc out_file_path redirect_err]: the descriptors
    given to [proc] (output, error). *)
Definition redirect_proc_out (out_file_path : string) (redirect_err : bool)
    (w : world) : option (nat * nat * world) :=
  match sys_open out_file_path w with
  | None => None
  | Some (fd, w') => Some (fd, if redirect_err then fd else STDERR_FILENO, w')
  end.

(** The stage being read when the [while (true)] loop breaks: the stages
    before it are complete, [procs[i]] has its arguments and its input. *)
Record pending : Type := Pending {
  completed : list process;
  cur_argv : list string;
  cur_in : nat;
  tok_iter : list string
}.

(** The [while (true)] loop of [parse_command].  [done] holds
    [procs[0..i-1]], so [i] is its length, and [cur_fd_in] is
    [procs[i]->fd_in].  Each iteration that goes on consumes a token, so
    the number of tokens bounds the iterations. *)
Fixpoint parse_stages (fuel : nat) (toks : list string) (cur_fd_in : nat)
    (done : list process) (w : world) : outcome pending :=
  match read_argv toks with
  | ArgvError e => Fail e w
  | Argv args rest =>
      match rest with
      | op :: rest' =>
          if is_pipe_token (Some op) then
            if (S (length done) <? PROCESS_MAX)%nat then
              match pipe_procs (redirect_err_of op) w with
              | None => Exited
              | Some (out, err, next_in, w') =>
                  match fuel with
                  | S fuel' =>
                      parse_stages fuel' rest' next_in
                        (done ++ [Process args cur_fd_in out err]) w'
                  | O => Undefined
                  end
              end
            else Undefined
          else Ok (Pending done args cur_fd_in rest) w
      | [] => Ok (Pending done args cur_fd_in rest) w
      end
  end.

(** [procs[i + 1] = NULL], the store that terminates the array. *)
Definition terminate_procs (procs : list process) (w : world)
  : outcome (list process) :=
  if (length procs <? PROCESS_MAX)%nat then Ok procs w else Undefined.

(** The part of [parse_command] after the loop, up to the store that
    terminates the array. *)
Definition parse_redirect (p : pending) (w : world) : outcome (list process) :=
  if is_out_redirect_token (head (tok_iter p)) then
    match tok_iter p with
    | op :: out_file_path :: after =>
        match redirect_proc_out out_file_path (redirect_err_of op) w with
        | None => Fail CannotOpenOutputFile w
        | Some (out, err, w') =>
            if is_pipe_token (head after) then Fail MisplacedRedirection w'
            else
              terminate_procs
                (completed p ++ [Process (cur_argv p) (cur_in p) out err]) w'
        end
    | _ => Fail MissingOutputFile w
    end
  else
    terminate_procs
      (completed p ++
       [Process (cur_argv p) (cur_in p) STDOUT_FILENO STDERR_FILENO]) w.

(** [parse_command] on the token array, from its first test to the store
    that terminates [procs]: [Ok] is the state in which the function goes
    on to its last two statements. *)
Definition parse_tokens (toks : list string) (w : world)
  : outcome (list process) :=
  match toks with
  | [] => Fail BlankLine w
  | _ :: _ =>
      match parse_stages (length toks) toks STDIN_FILENO [] w with
      | Ok p w' => parse_redirect p w'
      | Fail e w' => Fail e w'
      | Exited => Exited
      | Undefined => Undefined
      | InvalidFree _ _ => Undefined
      end
  end.

(** [free(tokens); return 0;], the last two statements of
    [parse_command].  [tokens] is the automatic array declared at the top
    of the function, not a pointer that [malloc] returned: the call is
    undefined behaviour, and the function does not get to its
    [return 0]. *)
Definition free_tokens (procs : list process) (w : world)
  : outcome (list process) :=
  InvalidFree procs w.

Definition parse_command (cmdline : string) (w : world)
  : outcome (list process) :=
  match read_tokens cmdline with
  | Tokens toks =>
      match parse_tokens toks w with
      | Ok procs w' => free_tokens procs w'
      | Fail e w' => Fail e w'
      | Exited => Exited
      | Undefined => Undefined
      | InvalidFree _ _ => Undefined
      end
  | LexUndefined => Undefined
  end.

(** ** Section 4 of the source: process execution *)

(** [close(fd)]; closing a descriptor that is not open changes nothing. *)
Definition sys_close (fd : nat) (t : gmap nat ofile) : gmap nat ofile :=
  delete fd t.

(** [dup2(oldfd, newfd)]: [None] stands for -1. *)
Definition sys_dup2 (oldfd newfd : nat) (t : gmap nat ofile)
  : option (gmap nat ofile) :=
  match t !! oldfd with
  | Some f => Some (<[newfd := f]> t)
  | None => None
  end.

Definition close_nonstd_fds (proc : process) (t : gmap nat ofile)
  : gmap nat ofile :=
  let t1 := if decide (fd_in proc = STDIN_FILENO) then t
            else sys_close (fd_in proc) t in
  let t2 := if decide (fd_out proc = STDOUT_FILENO) then t1
            else sys_close (fd_out proc) t1 in
  if decide (fd_err proc = STDERR_FILENO) then t2
  else sys_close (fd_err proc) t2.

(** How the code of the shell ends in a child: [exit_with_sys_err] after a
    failed [dup2], or the call of [execvp] with the descriptor table the
    program starts with. *)
Inductive child_end : Type :=
  | DupFailed
  | Execvp (args : list string) (t : gmap nat ofile).

Definition exec_proc (proc : process) (t : gmap nat ofile) : child_end :=
  match sys_dup2 (fd_in proc) STDIN_FILENO t with
  | None => DupFailed
  | Some t1 =>
      match sys_dup2 (fd_out proc) STDOUT_FILENO t1 with
      | None => DupFailed
      | Some t2 =>
          match sys_dup2 (fd_err proc) STDERR_FILENO t2 with
          | None => DupFailed
          | Some t3 => Execvp (argv proc) (close_nonstd_fds proc t3)
          end
      end
  end.

(** The child branch of the loop of [run_procs]: [later] is [procs[j]] for
    [j] from [i + 1] to the terminator, [t] the table inherited at the
    fork. *)
Definition child_branch (proc : process) (later : list process)
    (t : gmap nat ofile) : child_end :=
  exec_proc proc (foldl (fun t' q => close_nonstd_fds q t') t later).

(** What the rest of the system does around one call of [run_procs]:
    [forks] is what the successive calls of [fork] return in the shell
    ([None] for -1), [ended] lists the children that terminate with their
    wait status, in the order in which they terminate. *)
Record schedule : Type := Schedule {
  forks : list (option positive);
  ended : list (positive * Z)
}.

(** [arr[i] = x] in an array of [length arr] slots. *)
Definition store {A : Type} (i : nat) (x : A) (arr : list A)
  : option (list A) :=
  if (i <? length arr)%nat then Some (<[i := x]> arr) else None.

Inductive spawned : Type :=
  | Spawned (pids : list positive) (children : list (positive * child_end))
            (t : gmap nat ofile)
  | ForkFailed (children : list (positive * child_end))
  | SpawnUndefined.

(** The first loop of [run_procs] as the shell runs it, from index [i]:
    the pids stored in [pids[i..]], the children in the order of their
    forks, and the table the shell is left with.  [pids] has
    [PROCESS_MAX] slots; a call of [fork] beyond the end of [fk] fails like
    one that returns -1. *)
Fixpoint spawn (procs : list process) (fk : list (option positive))
    (t : gmap nat ofile) (i : nat) : spawned :=
  match procs with
  | [] => Spawned [] [] t
  | proc :: later =>
      match fk with
      | Some pid :: fk' =>
          if (i <? PROCESS_MAX)%nat then
            match spawn later fk' (close_nonstd_fds proc t) (S i) with
            | Spawned pids children t' =>
                Spawned (pid :: pids)
                        ((pid, child_branch proc later t) :: children) t'
            | ForkFailed children =>
                ForkFailed ((pid, child_branch proc later t) :: children)
            | SpawnUndefined => SpawnUndefined
            end
          else SpawnUndefined
      | _ => ForkFailed []
      end
  end.

(** [WEXITSTATUS(status)] *)
Definition WEXITSTATUS (status : Z) : Z :=
  Z.shiftr (Z.land status 65280) 8.

(** [waitpid(pid, &status, 0)] returns once the child has terminated: the
    status and the children still to be waited for, or [None] when the
    child never terminates. *)
Fixpoint waitpid (pid : positive) (zs : list (positive * Z))
  : option (Z * list (positive * Z)) :=
  match zs with
  | [] => None
  | (p, status) :: zs' =>
      if Pos.eqb p pid then Some (status, zs')
      else
        match waitpid pid zs' with
        | Some (st, rest) => Some (st, (p, status) :: rest)
        | None => None
        end
  end.

Inductive reaped : Type :=
  | Reaped (statuses : list Z) (zs : list (positive * Z))
  | Blocked
  | ReapUndefined.

(** [while (i--) { waitpid(pids[i], ...); statuses[i] = ...; }] *)
Fixpoint reap (i : nat) (pids : list positive) (zs : list (positive * Z))
    (statuses : list Z) : reaped :=
  match i with
  | O => Reaped statuses zs
  | S i' =>
      match pids !! i' with
      | None => ReapUndefined
      | Some pid =>
          match waitpid pid zs with
          | None => Blocked
          | Some (status, zs') =>
              match store i' (WEXITSTATUS status) statuses with
              | None => ReapUndefined
              | Some statuses' => reap i' pids zs' statuses'
              end
          end
      end
  end.

Inductive run_result : Type :=
  | Ran (statuses : list Z) (children : list (positive * child_end))
        (t : gmap nat ofile)
  | RunExited (children : list (positive * child_end))
  | RunBlocked (children : list (positive * child_end))
  | RunUndefined.

(** [run_procs procs statuses]; [statuses] is the caller's array as it is
    on entry. *)
Definition run_procs (procs : list process) (statuses : list Z)
    (sc : schedule) (t : gmap nat ofile) : run_result :=
  match spawn procs (forks sc) t 0 with
  | SpawnUndefined => RunUndefined
  | ForkFailed children => RunExited children
  | Spawned pids children t' =>
      match store (length pids) (-1)%Z statuses with
      | None => RunUndefined
      | Some statuses1 =>
          match reap (length pids) pids (ended sc) statuses1 with
          | Reaped statuses2 _ => Ran statuses2 children t'
          | Blocked => RunBlocked children
          | ReapUndefined => RunUndefined
          end
      end
  end.

(** ** Section 5 of the source: one turn of the loop of [main] *)

(** The statuses [main] prints: those before the first -1, [None] when the
    array holds no -1. *)
Fixpoint reported (statuses : list Z) : option (list Z) :=
  match statuses with
  | [] => None
  | s :: statuses' =>
      if (s =? -1)%Z then Some []
      else
        match reported statuses' with
        | Some l => Some (s :: l)
        | None => None
        end
  end.

Inductive builtin : Type :=
  | BuiltinExit
  | BuiltinPwd
  | BuiltinCd (path : option string)
  | BuiltinSls.

Inductive dispatch : Type :=
  | RunBuiltin (b : builtin)
  | RunPipeline (procs : list process).

(** The chain of [strcmp] on [procs[0]->argv[0]]; [cd] takes
    [procs[0]->argv[1]]. *)
Definition builtin_of (first_arg : string) (args : list string)
  : option builtin :=
  if String.eqb first_arg "exit" then Some BuiltinExit
  else if String.eqb first_arg "pwd" then Some BuiltinPwd
  else if String.eqb first_arg "cd" then Some (BuiltinCd (head args))
  else if String.eqb first_arg "sls" then Some BuiltinSls
  else None.

Definition dispatch_of (procs : list process) : option dispatch :=
  match procs with
  | [] => None
  | proc0 :: _ =>
      match argv proc0 with
      | [] => None
      | first_arg :: args =>
          Some (match builtin_of first_arg args with
                | Some b => RunBuiltin b
                | None => RunPipeline procs
                end)
      end
  end.

(** One turn of the [while (true)] of [main] on a line already read:
    [Skipped] is the [continue] after a failed parse, [TurnUndefined] a
    turn whose behaviour is undefined, in [main] or in a function it
    calls. *)
Inductive turn : Type :=
  | Skipped (e : parse_error) (w : world)
  | DidBuiltin (b : builtin) (w : world)
  | DidRun (r : run_result)
  | ShellExited
  | TurnUndefined.

Definition main_turn (cmdline : string) (statuses : list Z) (sc : schedule)
    (w : world) : turn :=
  match parse_command cmdline w with
  | Fail e w' => Skipped e w'
  | Exited => ShellExited
  | Undefined => TurnUndefined
  | InvalidFree _ _ => TurnUndefined
  | Ok procs w' =>
      match dispatch_of procs with
      | None => TurnUndefined
      | Some (RunBuiltin b) => DidBuiltin b w'
      | Some (RunPipeline procs') =>
          DidRun (run_procs procs' statuses sc (fdt w'))
      end
  end.

(** The children forked by a call of [run_procs], and during a turn. *)
Definition children_of (r : run_result) : list (positive * child_end) :=
  match r with
  | Ran _ children _ => children
  | RunExited children => children
  | RunBlocked children => children
  | RunUndefined => []
  end.

Definition forked (tn : turn) : list (positive * child_end) :=
  match tn with
  | DidRun r => children_of r
  | _ => []
  end.

(** ** Notions the properties are stated with *)

Fixpoint all_chars (f : ascii -> bool) (s : string) : bool :=
  match s with
  | String c s' => f c && all_chars f s'
  | EmptyString => true
  end.

(** A line as [fgets] and [strchr] leave it holds no NUL before its end. *)
Definition c_string (line : string) : bool :=
  all_chars (fun c => negb (Ascii.eqb c NUL)) line.

Definition no_operator (line : string) : bool :=
  all_chars (fun c => negb (is_op_char c)) line.

(** Following the spec's words: the whitespace-split words of a line, the
    maximal runs of characters other than space and tab, in order. *)
Fixpoint split_blanks (s : string) : list string :=
  match s with
  | EmptyString => []
  | String c s' =>
      if is_blank c then split_blanks s'
      else
        match s' with
        | EmptyString => [String c EmptyString]
        | String c' _ =>
            if is_blank c' then String c EmptyString :: split_blanks s'
            else
              match split_blanks s' with
              | word :: words => String c word :: words
              | [] => [String c EmptyString]
              end
        end
  end.

(** The pipe tokens of a line, in order. *)
Definition pipe_ops (toks : list string) : list string :=
  List.filter (fun t => is_pipe_token (Some t)) toks.

(** The shell runs with its three standard streams open. *)
Definition std_open (w : world) : Prop :=
  forall fd, fd <= STDERR_FILENO -> is_Some (fdt w !! fd).

(** What the wiring gives the stage at position [j], between the world [w]
    before the parse and the world [w'] after it.  Its input: the standard
    input for stage 0, else the read end of the pipe number [j - 1] of
    this line. *)
Definition wired_in (w w' : world) (j : nat) (fd : nat) : Prop :=
  match j with
  | O => fd = STDIN_FILENO
  | S j' =>
      fdt w !! fd = None /\ fdt w' !! fd = Some (PipeRead (npipes w + j'))
  end.

(** The output and error of a stage followed by the pipe operator number
    [j] of the line. *)
Definition wired_pipe (w w' : world) (ops : list string) (j : nat)
    (p : process) : Prop :=
  exists op,
    ops !! j = Some op /\
    fdt w !! fd_out p = None /\
    fdt w' !! fd_out p = Some (PipeWrite (npipes w + j)) /\
    fd_err p = (if redirect_err_of op then fd_out p else STDERR_FILENO).

(** The output and error of the last stage. *)
Definition wired_last (w w' : world) (p : process) : Prop :=
  (fd_out p = STDOUT_FILENO /\ fd_err p = STDERR_FILENO) \/
  (fdt w !! fd_out p = None /\
   (exists path, fdt w' !! fd_out p = Some (OutFile path)) /\
   (fd_err p = fd_out p \/ fd_err p = STDERR_FILENO)).

(** The invariant of the [while (true)] loop of [parse_command], for a
    parse started in [w0] on a line with pipe tokens [ops]. *)
Record stages_inv (w0 : world) (ops : list string) (done : list process)
    (cur_fd_in : nat) (toks : list string) (w : world) : Prop := StagesInv {
  inv_npipes : npipes w = npipes w0 + length done;
  inv_grow : fdt w0 ⊆ fdt w;
  inv_ops : pipe_ops toks = drop (length done) ops;
  inv_done : forall j p, done !! j = Some p ->
             wired_in w0 w j (fd_in p) /\ wired_pipe w0 w ops j p;
  inv_cur : wired_in w0 w (length done) cur_fd_in;
  inv_cover : forall fd, fdt w0 !! fd = None -> is_Some (fdt w !! fd) ->
              fd = cur_fd_in \/
              exists p, p ∈ done /\ (fd = fd_in p \/ fd = fd_out p)
}.

(** What an accepted parse has wired: one pipe for each stage but the
    last, every stage on its ends, and no other descriptor opened. *)
Record wired (w : world) (toks : list string) (procs : list process)
    (w' : world) : Prop := Wired {
  wired_grow : fdt w ⊆ fdt w';
  wired_length : 0 < length procs;
  wired_npipes : npipes w' + 1 = npipes w + length procs;
  wired_stage : forall j p, procs !! j = Some p ->
      wired_in w w' j (fd_in p) /\
      if decide (S j = length procs) then wired_last w w' p
      else wired_pipe w w' (pipe_ops toks) j p;
  wired_cover : forall fd, fdt w !! fd = None -> is_Some (fdt w' !! fd) ->
      exists p, p ∈ procs /\ (fd = fd_in p \/ fd = fd_out p)
}.

(** The descriptors of several stages closed in turn, as the loops of
    [run_procs] do. *)
Definition close_all (ps : list process) (t : gmap nat ofile)
  : gmap nat ofile :=
  foldl (fun t' q => close_nonstd_fds q t') t ps.

(** The children forked by the first loop of [run_procs]. *)
Definition spawned_children (r : spawned) : list (positive * child_end) :=
  match r with
  | Spawned _ children _ => children
  | ForkFailed children => children
  | SpawnUndefined => []
  end.

(** The descriptors [close_nonstd_fds] closes. *)
Definition nonstd_fds (p : process) : list nat :=
  (if decide (fd_in p = STDIN_FILENO) then [] else [fd_in p]) ++
  (if decide (fd_out p = STDOUT_FILENO) then [] else [fd_out p]) ++
  (if decide (fd_err p = STDERR_FILENO) then [] else [fd_err p]).

(** The input, output and error descriptors of a stage. *)
Definition in_triple (p : process) (fd : nat) : Prop :=
  fd = fd_in p \/ fd = fd_out p \/ fd = fd_err p.

(** A wired pipeline as [run_procs] takes it, in the descriptor table [t]
    of the shell: every descriptor of every stage is open, a slot of a
    stage holds its standard stream or a descriptor above the standard
    ones, and a descriptor that is closed for one stage is in the triple
    of no other stage. *)
Record wired_stages (t : gmap nat ofile) (procs : list process)
  : Prop := WiredStages {
  stage_open : forall p fd, p ∈ procs -> in_triple p fd -> is_Some (t !! fd);
  stage_above : forall p fd,
      p ∈ procs -> fd ∈ nonstd_fds p -> STDERR_FILENO < fd;
  stage_apart : forall i j p q fd,
      procs !! i = Some p -> procs !! j = Some q -> j <> i ->
      fd ∈ nonstd_fds q -> ~ in_triple p fd
}.

(** What a descriptor created for the stage at position [j] of [len]
    stages refers to. *)
Definition stage_label (w : world) (len j : nat) (f : ofile) : Prop :=
  match f with
  | PipeRead k => exists j', j = S j' /\ k = npipes w + j'
  | PipeWrite k => S j <> len /\ k = npipes w + j
  | OutFile _ => S j = len
  | Inherited _ => False
  end.

(** A slot of a stage holds its standard stream [std] or a descriptor
    created for the stage by the parse. *)
Definition slot_wired (w w' : world) (len j std fd : nat) : Prop :=
  fd = std \/
  (fdt w !! fd = None /\
   exists f, fdt w' !! fd = Some f /\ stage_label w len j f).

(** The loop of [parse_command] on a token array, as [parse_tokens] runs
    it, and what it does once [read_argv] has returned the arguments of a
    stage. *)
Definition parse_loop (toks : list string) (cur_fd_in : nat)
    (done : list process) (w : world) : outcome pending :=
  parse_stages (length toks) toks cur_fd_in done w.

Definition after_argv (args rest : list string) (cur_fd_in : nat)
    (done : list process) (w : world) : outcome pending :=
  match rest with
  | op :: rest' =>
      if is_pipe_token (Some op) then
        if (S (length done) <? PROCESS_MAX)%nat then
          match pipe_procs (redirect_err_of op) w with
          | None => Exited
          | Some (out, err, next_in, w') =>
              parse_loop rest' next_in
                (done ++ [Process args cur_fd_in out err]) w'
          end
        else Undefined
      else Ok (Pending done args cur_fd_in rest) w
  | [] => Ok (Pending done args cur_fd_in rest) w
  end.

(** A token array without redirect operator. *)
Definition no_redirect (toks : list string) : Prop :=
  Forall (fun t => is_out_redirect_token (Some t) = false) toks.


(** The command lines with a stage that has no argument, the way
    [parse_command] returns -1 on them and the world it leaves: a line
    without token; a line whose first token is an operator; an accepted
    pipeline without redirection, then a pipe operator and no argument
    after it, the pipe of that operator having been created. *)
Inductive empty_stage : list string -> world -> parse_error -> world -> Prop :=
  | empty_line w :
      empty_stage [] w BlankLine w
  | leading_operator op rest w :
      is_arg (Some op) = false ->
      empty_stage (op :: rest) w MissingCommand w
  | dangling_pipe pre op tail w procs w1 rd wr w2 :
      parse_tokens pre w = Ok procs w1 ->
      no_redirect pre ->
      is_pipe_token (Some op) = true ->
      is_arg (head tail) = false ->
      sys_pipe w1 = Some (rd, wr, w2) ->
      empty_stage (pre ++ op :: tail) w MissingCommand w2.

(** The four operator tokens, and the argument tokens that fit the token
    buffer: a non-empty run of characters that the copying loop of
    [read_next_token] accepts. *)
Definition is_operator_token (t : string) : bool :=
  String.eqb t "|" || String.eqb t "|&" || String.eqb t ">" || String.eqb t ">&".

Definition is_word (t : string) : bool :=
  match t with
  | EmptyString => false
  | String _ _ => all_chars is_arg_char t && fits_buffer t
  end.

(** A command line written back from its tokens: each token followed by a
    space. *)
Fixpoint join_tokens (toks : list string) : string :=
  match toks with
  | [] => EmptyString
  | t :: toks' => (t ++ String " " (join_tokens toks'))%string
  end.

(** Every run of argument characters of the line, the [cur] characters
    before it counted in, is shorter than the token buffer. *)
Fixpoint runs_fit (s : string) (cur : nat) : bool :=
  match s with
  | EmptyString => true
  | String c s' =>
      if is_arg_char c then (S cur <? TOKEN_MAX)%nat && runs_fit s' (S cur)
      else runs_fit s' 0
  end.

(** The tokens of a pipeline: the argument lists of its stages with the
    pipe operators between them. *)
Fixpoint weave (argvs : list (list string)) (ops : list string)
  : list string :=
  match argvs with
  | [] => []
  | args :: argvs' =>
      match argvs', ops with
      | _ :: _, op :: ops' => args ++ op :: weave argvs' ops'
      | _, _ => args
      end
  end.

(** Both ends of every pipe created since the pipe counter was [from] are
    open in the shell. *)
Definition pipes_open (from : nat) (w : world) : Prop :=
  forall k, from <= k < npipes w ->
    exists rd wr,
      fdt w !! rd = Some (PipeRead k) /\ fdt w !! wr = Some (PipeWrite k).

(** The world a piece of code leaves when it completes or returns -1. *)
Definition outcome_world {A : Type} (r : outcome A) : option world :=
  match r with
  | Ok _ w => Some w
  | Fail _ w => Some w
  | Exited => None
  | Undefined => None
  | InvalidFree _ _ => None
  end.

(** A shell started with its three standard streams and nothing else. *)
Definition fresh_world (limit : nat) : world :=
  World (<[2 := Inherited 2]> (<[1 := Inherited 1]> {[0 := Inherited 0]}))
        limit ∅ ∅ 0.

Example read_tokens_pipe :
  read_tokens "ls -l|&  wc>& out" = Tokens ["ls"; "-l"; "|&"; "wc"; ">&"; "out"].
Proof. reflexivity. Qed.

Example parse_pipe_redirect :
  parse_command "ls -l|&  wc>& out" (fresh_world 16)
  = InvalidFree [Process ["ls"; "-l"] 0 4 4; Process ["wc"] 3 5 5]
       (World (<[5 := OutFile "out"]> (<[4 := PipeWrite 0]>
                 (<[3 := PipeRead 0]> (fdt (fresh_world 16)))))
              16 {["out" := ""]} ∅ 1).
Proof. vm_compute. reflexivity. Qed.

Example split_blanks_line :
  split_blanks "  echo  hello	world " = ["echo"; "hello"; "world"].
Proof. reflexivity. Qed.

(** * Properties *)

(** Closes a branch whose outcome cannot be the one assumed. *)
Ltac other_outcome := let H := fresh in intros H; discriminate H.

(** ** The end of [parse_command] *)

(** [parse_command] gets to its call of [free] exactly when the code
    before it has stored the stages and the terminator. *)
Lemma parse_command_built cmdline toks w procs w' :
  read_tokens cmdline = Tokens toks ->
  parse_command cmdline w = InvalidFree procs w' <->
  parse_tokens toks w = Ok procs w'.
Proof.
  intros Htoks. unfold parse_command, free_tokens. rewrite Htoks.
  destruct (parse_tokens toks w); split; intros H; try discriminate H;
    by injection H as -> ->.
Qed.

Lemma parse_command_inv cmdline w procs w' :
  parse_command cmdline w = InvalidFree procs w' ->
  exists toks, read_tokens cmdline = Tokens toks /\
               parse_tokens toks w = Ok procs w'.
Proof.
  intros Hparse. destruct (read_tokens cmdline) as [toks|] eqn:Htoks.
  - exists toks. split; [done|]. by apply (parse_command_built cmdline).
  - unfold parse_command in Hparse. by rewrite Htoks in Hparse.
Qed.

(** The [return 0] of [parse_command] is behind the call of [free]. *)
Lemma parse_command_no_return cmdline w procs w' :
  parse_command cmdline w <> Ok procs w'.
Proof.
  unfold parse_command, free_tokens.
  destruct (read_tokens cmdline); [|done]. by destruct (parse_tokens _ _).
Qed.

(** ** Tokenizer *)

Lemma skip_blanks_length s :
  String.length (skip_blanks s) <= String.length s.
Proof.
  induction s as [|c s IH]; simpl; [lia|].
  destruct (is_blank c); simpl; lia.
Qed.

Lemma skip_blanks_head s c r :
  skip_blanks s = String c r -> is_blank c = false.
Proof.
  induction s as [|c' s IH]; simpl; [discriminate|].
  destruct (is_blank c') eqn:Hb; [exact IH|].
  intros [= <- <-]. exact Hb.
Qed.

Lemma all_chars_skip_blanks f s :
  all_chars f s = true -> all_chars f (skip_blanks s) = true.
Proof.
  induction s as [|c s IH]; simpl; [done|].
  intros [Hc Hs]%andb_prop.
  destruct (is_blank c); [auto|]. simpl. by rewrite Hc, Hs.
Qed.

Lemma copy_arg_length s buf rest :
  copy_arg s = (buf, rest) -> String.length rest <= String.length s.
Proof.
  revert buf rest. induction s as [|c s IH]; simpl; intros buf rest.
  - intros [= <- <-]. simpl. lia.
  - destruct (is_arg_char c).
    + destruct (copy_arg s) as [b r]. intros [= <- <-].
      specialize (IH b r eq_refl). lia.
    + intros [= <- <-]. simpl. lia.
Qed.

Lemma all_chars_copy_arg f s buf rest :
  all_chars f s = true -> copy_arg s = (buf, rest) ->
  all_chars f rest = true.
Proof.
  revert buf rest. induction s as [|c s IH]; simpl; intros buf rest Hall.
  - by intros [= <- <-].
  - apply andb_prop in Hall as [Hc Hs].
    destruct (is_arg_char c).
    + destruct (copy_arg s) as [b r]. intros [= <- <-]. by apply (IH b r).
    + intros [= <- <-]. simpl. by rewrite Hc, Hs.
Qed.

Lemma split_blanks_skip s : split_blanks (skip_blanks s) = split_blanks s.
Proof.
  induction s as [|c s IH]; simpl; [done|].
  destruct (is_blank c) eqn:Hb; [exact IH|].
  simpl. by rewrite Hb.
Qed.

(** On a line without NUL and operator characters the copying loop stops
    exactly at the next blank: the token is the word. *)
Lemma split_blanks_word c r :
  is_blank c = false -> c_string r = true -> no_operator r = true ->
  split_blanks (String c r)
  = String c (copy_arg r).1 :: split_blanks (copy_arg r).2.
Proof.
  revert c. induction r as [|c' r IH]; intros c Hc Hnul Hop.
  - simpl. by rewrite Hc.
  - apply andb_prop in Hnul as [Hnul' Hnul].
    apply andb_prop in Hop as [Hop' Hop].
    change (split_blanks (String c (String c' r)))
      with (if is_blank c then split_blanks (String c' r)
            else if is_blank c' then String c EmptyString :: split_blanks (String c' r)
            else match split_blanks (String c' r) with
                 | word :: words => String c word :: words
                 | [] => [String c EmptyString]
                 end).
    rewrite Hc.
    change (copy_arg (String c' r))
      with (if is_arg_char c'
            then let '(buf, rest) := copy_arg r in (String c' buf, rest)
            else (EmptyString, String c' r)).
    unfold is_arg_char. rewrite Hnul', Hop'.
    destruct (is_blank c') eqn:Hb'; simpl negb; cbv iota; [done|].
    rewrite (IH c' Hb' Hnul Hop).
    by destruct (copy_arg r).
Qed.

Lemma read_tokens_from_unfold fuel s n :
  read_tokens_from fuel s n
  = match read_next_token s with
    | NoToken => if (n <? CMDLINE_MAX)%nat then Tokens [] else LexUndefined
    | Overrun => LexUndefined
    | Token buf rest =>
        if (n <? CMDLINE_MAX)%nat then
          match fuel with
          | S fuel' => lexed_cons buf (read_tokens_from fuel' rest (S n))
          | O => LexUndefined
          end
        else LexUndefined
    end.
Proof. by destruct fuel. Qed.

Lemma read_next_token_shorter s buf rest :
  read_next_token s = Token buf rest -> String.length rest < String.length s.
Proof.
  unfold read_next_token. pose proof (skip_blanks_length s) as Hskip.
  destruct (skip_blanks s) as [|c r]; [done|]. simpl in Hskip.
  destruct (Ascii.eqb c NUL); [done|]. destruct (is_op_char c).
  - destruct r as [|c' r']; [intros [= <- <-]; simpl; lia|].
    destruct (Ascii.eqb_spec c' "&") as [->|Hc'].
    + intros [= <- <-]. simpl in *. lia.
    + intros Htok. assert (rest = String c' r') as ->; [|simpl in *; lia].
      destruct c' as [[] [] [] [] [] [] [] []]; by inversion Htok.
  - pose proof (copy_arg_length r) as Hcopy.
    destruct (copy_arg r) as [b r']. specialize (Hcopy _ _ eq_refl).
    destruct (fits_buffer _); [|done]. intros [= <- <-]. lia.
Qed.

(** The bound of [read_tokens_from] plays no part once it is the length of
    the line: every token takes a character. *)
Lemma read_tokens_from_fuel f1 : forall f2 s n,
  String.length s <= f1 -> String.length s <= f2 ->
  read_tokens_from f1 s n = read_tokens_from f2 s n.
Proof.
  induction f1 as [|f1 IH]; intros f2 s n H1 H2;
    rewrite !(read_tokens_from_unfold _ s);
    destruct (read_next_token s) as [|buf rest|] eqn:Hnext; try done;
    apply read_next_token_shorter in Hnext;
    destruct (n <? CMDLINE_MAX)%nat; try done;
    destruct f2 as [|f2]; try lia.
  f_equal. apply IH; lia.
Qed.

Lemma read_tokens_from_words fuel : forall s n,
  String.length s <= fuel ->
  c_string s = true -> no_operator s = true ->
  Forall (fun word => String.length word < TOKEN_MAX) (split_blanks s) ->
  n + length (split_blanks s) < CMDLINE_MAX ->
  read_tokens_from fuel s n = Tokens (split_blanks s).
Proof.
  induction fuel as [|fuel IH]; intros s n Hlen Hnul Hop Hfit Hcap;
    rewrite read_tokens_from_unfold; unfold read_next_token;
    rewrite <- (split_blanks_skip s) in *;
    pose proof (skip_blanks_length s) as Hskip;
    pose proof (skip_blanks_head s) as Hhead;
    apply (all_chars_skip_blanks _ s) in Hnul;
    apply (all_chars_skip_blanks _ s) in Hop;
    destruct (skip_blanks s) as [|c r]; simpl in Hskip;
    try (exfalso; lia).
  - simpl in *. by rewrite (proj2 (Nat.ltb_lt _ _)) by lia.
  - simpl in *. by rewrite (proj2 (Nat.ltb_lt _ _)) by lia.
  - specialize (Hhead c r eq_refl).
    apply andb_prop in Hnul as [Hc0 Hnul]. apply andb_prop in Hop as [Hcop Hop].
    rewrite (split_blanks_word c r Hhead Hnul Hop) in *.
    apply negb_true_iff in Hc0, Hcop. rewrite Hc0, Hcop.
    pose proof (copy_arg_length r) as Hrest.
    pose proof (all_chars_copy_arg (fun c => negb (Ascii.eqb c NUL)) r) as Hnul'.
    pose proof (all_chars_copy_arg (fun c => negb (is_op_char c)) r) as Hop'.
    destruct (copy_arg r) as [buf rest]. simpl fst in *; simpl snd in *.
    specialize (Hrest _ _ eq_refl).
    apply Forall_cons in Hfit as [Hfit1 Hfit].
    unfold fits_buffer. rewrite (proj2 (Nat.ltb_lt _ _) Hfit1).
    simpl length in Hcap.
    rewrite (proj2 (Nat.ltb_lt n CMDLINE_MAX)) by lia.
    rewrite IH; [done| lia | by apply (Hnul' buf) | by apply (Hop' buf) | done | lia].
Qed.

Lemma split_blanks_all_chars f s :
  all_chars f s = true ->
  Forall (fun word => all_chars f word = true) (split_blanks s).
Proof.
  induction s as [|c s IH]; [constructor|].
  intros [Hc Hs]%andb_prop. specialize (IH Hs).
  change (split_blanks (String c s))
    with (if is_blank c then split_blanks s
          else match s with
               | EmptyString => [String c EmptyString]
               | String c' _ =>
                   if is_blank c' then String c EmptyString :: split_blanks s
                   else match split_blanks s with
                        | word :: words => String c word :: words
                        | [] => [String c EmptyString]
                        end
               end).
  assert (Hone : all_chars f (String c EmptyString) = true)
    by (simpl; by rewrite Hc).
  destruct (is_blank c); [done|].
  destruct s as [|c' s]; [by repeat constructor|].
  destruct (is_blank c'); [by constructor|].
  destruct (split_blanks (String c' s)) as [|word words];
    [by repeat constructor|].
  apply Forall_cons in IH as [Hword Hwords].
  constructor; [|done]. simpl. by rewrite Hc, Hword.
Qed.

Lemma is_arg_no_operator word :
  no_operator word = true -> is_arg (Some word) = true.
Proof.
  destruct word as [|c word]; [done|].
  unfold no_operator, is_op_char, is_arg. simpl.
  intros [Hc _]%andb_prop. apply negb_true_iff, orb_false_elim in Hc as [-> ->].
  done.
Qed.

(** ** Reading the arguments of a stage *)

Lemma read_argv_from_args args : forall rest i,
  Forall (fun a => is_arg (Some a) = true) args ->
  i + length args <= ARG_MAX ->
  is_arg (head rest) = false ->
  read_argv_from (args ++ rest) i = Some (args, rest).
Proof.
  induction args as [|a args IH]; intros rest i Hargs Hlen Hrest.
  - destruct rest as [|t rest]; [done|]. simpl in *. by rewrite Hrest.
  - apply Forall_cons in Hargs as [Ha Hargs]. simpl in *. rewrite Ha.
    rewrite (proj2 (Nat.eqb_neq i ARG_MAX)) by lia.
    rewrite IH; [done|done|lia|done].
Qed.

Lemma read_argv_args args rest :
  args <> [] ->
  Forall (fun a => is_arg (Some a) = true) args ->
  length args <= ARG_MAX ->
  is_arg (head rest) = false ->
  read_argv (args ++ rest) = Argv args rest.
Proof.
  intros Hne Hargs Hlen Hrest. unfold read_argv.
  rewrite read_argv_from_args by (done || lia).
  by destruct args.
Qed.

Lemma read_argv_from_inv toks : forall i args rest,
  read_argv_from toks i = Some (args, rest) ->
  toks = args ++ rest /\
  Forall (fun a => is_arg (Some a) = true) args /\
  is_arg (head rest) = false.
Proof.
  induction toks as [|t toks IH]; intros i args rest; simpl.
  - intros [= <- <-]. by repeat split.
  - destruct (is_arg (Some t)) eqn:Ht.
    + destruct (i =? ARG_MAX)%nat; [done|].
      destruct (read_argv_from toks (S i)) as [[args' rest']|] eqn:Hrec;
        [|done].
      intros [= <- <-]. destruct (IH _ _ _ Hrec) as (-> & Hargs & Hrest).
      repeat split; [by constructor|done].
    + intros [= <- <-]. by repeat split.
Qed.

Lemma read_argv_inv toks args rest :
  read_argv toks = Argv args rest ->
  args <> [] /\ toks = args ++ rest /\
  Forall (fun a => is_arg (Some a) = true) args /\
  is_arg (head rest) = false.
Proof.
  unfold read_argv.
  destruct (read_argv_from toks 0) as [[args' rest']|] eqn:Hfrom; [|done].
  apply read_argv_from_inv in Hfrom.
  destruct args' as [|a args']; [done|].
  by intros [= <- <-].
Qed.

(** An argument token is not a pipe token. *)
Lemma is_arg_not_pipe t : is_arg (Some t) = true -> is_pipe_token (Some t) = false.
Proof. unfold is_arg, is_pipe_token. by intros [_ ?%negb_true_iff]%andb_prop. Qed.

Lemma filter_pipe_args args rest :
  Forall (fun a => is_arg (Some a) = true) args ->
  List.filter (fun t => is_pipe_token (Some t)) (args ++ rest)
  = List.filter (fun t => is_pipe_token (Some t)) rest.
Proof.
  induction 1 as [|a args Ha _ IH]; [done|].
  simpl. by rewrite (is_arg_not_pipe a Ha).
Qed.

(** C5. On a line without '|' and '>' that holds between 1 and 16
    whitespace-separated words, each shorter than the token buffer, the
    tokenizer gives the whitespace-split words of the line in order,
    [read_argv] takes all of them as the arguments of one stage, and
    [parse_command] stores exactly that stage, on the three standard
    streams, in [procs].  It then calls [free] on its automatic array
    [tokens]: the stage is built, and the function never returns it. *)
Theorem parse_command_plain_words (line : string) (w : world) :
  c_string line = true ->
  no_operator line = true ->
  1 <= length (split_blanks line) <= ARG_MAX ->
  Forall (fun word => String.length word < TOKEN_MAX) (split_blanks line) ->
  read_tokens line = Tokens (split_blanks line) /\
  read_argv (split_blanks line) = Argv (split_blanks line) [] /\
  parse_command line w
  = InvalidFree
      [Process (split_blanks line) STDIN_FILENO STDOUT_FILENO STDERR_FILENO] w /\
  forall procs w', parse_command line w <> Ok procs w'.
Proof.
  intros Hnul Hop [Hmin Hmax] Hfit.
  assert (Htoks : read_tokens line = Tokens (split_blanks line)).
  { unfold read_tokens. rewrite read_tokens_from_words;
      [done|done|done|done|done|unfold ARG_MAX, CMDLINE_MAX in *; lia]. }
  pose proof (split_blanks_all_chars _ line Hop) as Hwords.
  assert (Hargs : Forall (fun a => is_arg (Some a) = true) (split_blanks line)).
  { eapply Forall_impl; [exact Hwords|]. intros a. apply is_arg_no_operator. }
  assert (Hargv : read_argv (split_blanks line) = Argv (split_blanks line) []).
  { destruct (split_blanks line) as [|word words] eqn:Hsplit;
      [simpl in Hmin; lia|].
    pose proof (read_argv_args (word :: words) [] ltac:(done) Hargs Hmax eq_refl)
      as Hargv.
    by rewrite app_nil_r in Hargv. }
  assert (Hparse : parse_command line w
    = InvalidFree
        [Process (split_blanks line) STDIN_FILENO STDOUT_FILENO STDERR_FILENO] w).
  { unfold parse_command. rewrite Htoks. unfold parse_tokens.
    destruct (split_blanks line) as [|word words] eqn:Hsplit;
      [simpl in Hmin; lia|].
    assert (Hstage : forall fuel,
      parse_stages fuel (word :: words) STDIN_FILENO [] w
      = Ok (Pending [] (word :: words) STDIN_FILENO []) w)
      by (intros fuel; destruct fuel; simpl; by rewrite Hargv).
    by rewrite Hstage. }
  split; [done|]. split; [done|]. split; [done|].
  intros procs w' Hok. rewrite Hparse in Hok. discriminate Hok.
Qed.

Lemma parse_command_plain_words_witness :
  parse_command "  echo  hello	world " (fresh_world 16)
  = InvalidFree [Process ["echo"; "hello"; "world"] 0 1 2] (fresh_world 16).
Proof.
  refine (proj1 (proj2 (proj2
    (parse_command_plain_words "  echo  hello	world " (fresh_world 16)
       _ _ _ _))));
    vm_compute; try done; try lia; repeat constructor.
Defined.

(** ** The kernel calls *)

Lemma lowest_free_None t limit fd :
  lowest_free t limit = Some fd -> t !! fd = None.
Proof.
  unfold lowest_free. intros [_ Hfree]%find_some.
  unfold is_free in Hfree. by destruct (t !! fd).
Qed.

Lemma sys_pipe_inv w rd wr w' :
  sys_pipe w = Some (rd, wr, w') ->
  fdt w !! rd = None /\ fdt w !! wr = None /\ rd <> wr /\
  w' = World (<[wr := PipeWrite (npipes w)]> (<[rd := PipeRead (npipes w)]> (fdt w)))
             (fd_limit w) (files w) (denied w) (S (npipes w)).
Proof.
  unfold sys_pipe.
  destruct (lowest_free (fdt w) (fd_limit w)) as [rd'|] eqn:Hrd; [|done].
  destruct (lowest_free (<[rd':=PipeRead (npipes w)]> (fdt w)) (fd_limit w))
    as [wr'|] eqn:Hwr; [|done].
  intros [= <- <- <-].
  apply lowest_free_None in Hrd, Hwr.
  apply lookup_insert_None in Hwr as [Hwr Hne].
  by repeat split.
Qed.

Lemma sys_open_inv path w fd w' :
  sys_open path w = Some (fd, w') ->
  fdt w !! fd = None /\
  w' = World (<[fd := OutFile path]> (fdt w)) (fd_limit w)
             (<[path := EmptyString]> (files w)) (denied w) (npipes w).
Proof.
  unfold sys_open. destruct (decide (path ∈ denied w)); [done|].
  destruct (lowest_free (fdt w) (fd_limit w)) as [fd'|] eqn:Hfd; [|done].
  intros [= <- <-]. apply lowest_free_None in Hfd. by split.
Qed.

(** ** The loop of [parse_command] *)

Lemma parse_stages_unfold fuel toks cur_fd_in done w :
  parse_stages fuel toks cur_fd_in done w
  = match read_argv toks with
    | ArgvError e => Fail e w
    | Argv args rest =>
        match rest with
        | op :: rest' =>
            if is_pipe_token (Some op) then
              if (S (length done) <? PROCESS_MAX)%nat then
                match pipe_procs (redirect_err_of op) w with
                | None => Exited
                | Some (out, err, next_in, w') =>
                    match fuel with
                    | S fuel' =>
                        parse_stages fuel' rest' next_in
                          (done ++ [Process args cur_fd_in out err]) w'
                    | O => Undefined
                    end
                end
              else Undefined
            else Ok (Pending done args cur_fd_in rest) w
        | [] => Ok (Pending done args cur_fd_in rest) w
        end
    end.
Proof. by destruct fuel. Qed.

Lemma pipe_procs_inv redirect_err w out err next_in w' :
  pipe_procs redirect_err w = Some (out, err, next_in, w') ->
  sys_pipe w = Some (next_in, out, w') /\
  err = (if redirect_err then out else STDERR_FILENO).
Proof.
  unfold pipe_procs. destruct (sys_pipe w) as [[[rd wr] w1]|]; [|done].
  by intros [= <- <- <- <-].
Qed.

Lemma wired_in_grow w0 w w1 j fd :
  fdt w ⊆ fdt w1 -> wired_in w0 w j fd -> wired_in w0 w1 j fd.
Proof.
  intros Hsub. destruct j as [|j]; [done|]. intros [H0 H1].
  split; [done|]. by eapply lookup_weaken.
Qed.

Lemma wired_pipe_grow w0 w w1 ops j p :
  fdt w ⊆ fdt w1 -> wired_pipe w0 w ops j p -> wired_pipe w0 w1 ops j p.
Proof.
  intros Hsub (op & Hop & H0 & H1 & Herr). exists op.
  repeat split; [done|done| |done]. by eapply lookup_weaken.
Qed.

Lemma stages_inv_step w0 ops done cin toks w args op rest rd wr w1 :
  stages_inv w0 ops done cin toks w ->
  read_argv toks = Argv args (op :: rest) ->
  is_pipe_token (Some op) = true ->
  sys_pipe w = Some (rd, wr, w1) ->
  stages_inv w0 ops
    (done ++ [Process args cin wr (if redirect_err_of op then wr else STDERR_FILENO)])
    rd rest w1.
Proof.
  intros [Hn Hgrow Hops Hdone Hcur Hcover] Hargv Hpipe Hsys.
  apply read_argv_inv in Hargv as (_ & -> & Hargs & _).
  apply sys_pipe_inv in Hsys as (Hrd & Hwr & Hne & ->).
  assert (Hsub : fdt w ⊆ <[wr:=PipeWrite (npipes w)]> (<[rd:=PipeRead (npipes w)]> (fdt w))).
  { etrans; [apply (insert_subseteq _ rd); exact Hrd|].
    apply insert_subseteq. by rewrite lookup_insert_ne. }
  unfold pipe_ops in Hops. rewrite filter_pipe_args in Hops by done.
  simpl in Hops. rewrite Hpipe in Hops.
  assert (Hop : ops !! length done = Some op).
  { rewrite <- (Nat.add_0_r (length done)), <- lookup_drop, <- Hops. done. }
  split; simpl.
  - rewrite length_app. simpl. lia.
  - by etrans.
  - rewrite length_app. simpl. rewrite Nat.add_1_r.
    rewrite <- Nat.add_1_r, <- drop_drop, <- Hops. done.
  - intros j p Hj. apply lookup_app_Some in Hj as [Hj|[Hlen Hj]].
    + destruct (Hdone j p Hj) as [Hin Hout].
      split; [by eapply wired_in_grow|by eapply wired_pipe_grow].
    + apply list_lookup_singleton_Some in Hj as [Hj <-].
      assert (j = length done) as -> by lia. simpl. split.
      * by eapply wired_in_grow.
      * exists op. simpl. split; [done|]. split; [by eapply lookup_weaken_None|].
        split; [by rewrite lookup_insert_eq, Hn|done].
  - rewrite length_app. simpl. rewrite Nat.add_1_r. simpl. split.
    + by eapply lookup_weaken_None.
    + rewrite lookup_insert_ne by done. by rewrite lookup_insert_eq, Hn.
  - intros fd Hfd0 Hfd1.
    destruct (decide (fd = rd)) as [->|Hnrd]; [by left|]. right.
    destruct (decide (fd = wr)) as [->|Hnwr].
    { eexists. split; [apply elem_of_app; right; apply list_elem_of_singleton; done|].
      by right. }
    rewrite !lookup_insert_ne in Hfd1 by done.
    destruct (Hcover fd Hfd0 Hfd1) as [->|(p & Hp & Hfd)].
    + eexists. split; [apply elem_of_app; right; apply list_elem_of_singleton; done|].
      by left.
    + exists p. split; [|done]. apply elem_of_app. by left.
Qed.

Lemma stages_inv_toks w0 ops done cin toks toks' w :
  pipe_ops toks' = pipe_ops toks ->
  stages_inv w0 ops done cin toks w -> stages_inv w0 ops done cin toks' w.
Proof. intros Heq [? ? Hops ? ? ?]. split; try done. by rewrite Heq. Qed.

Lemma parse_stages_inv w0 ops fuel : forall toks cin done w p w',
  stages_inv w0 ops done cin toks w ->
  parse_stages fuel toks cin done w = Ok p w' ->
  stages_inv w0 ops (completed p) (cur_in p) (tok_iter p) w' /\
  is_pipe_token (head (tok_iter p)) = false.
Proof.
  assert (Hbreak : forall toks cin done w args rest p w',
    stages_inv w0 ops done cin toks w ->
    read_argv toks = Argv args rest ->
    is_pipe_token (head rest) = false ->
    Ok (Pending done args cin rest) w = Ok p w' ->
    stages_inv w0 ops (completed p) (cur_in p) (tok_iter p) w' /\
    is_pipe_token (head (tok_iter p)) = false).
  { intros toks cin done w args rest p w' Hinv Hargv Hhead [= <- <-].
    apply read_argv_inv in Hargv as (_ & Htoks & Hargs & _).
    split; [|done]. apply (stages_inv_toks _ _ _ _ toks); [|done].
    rewrite Htoks. unfold pipe_ops. by rewrite filter_pipe_args. }
  induction fuel as [|fuel IH]; intros toks cin done w p w' Hinv;
    rewrite parse_stages_unfold;
    (destruct (read_argv toks) as [args rest|e] eqn:Hargv; [|other_outcome]);
    (destruct rest as [|op rest]; [by eapply Hbreak|]);
    (destruct (is_pipe_token (Some op)) eqn:Hpipe; [|by eapply Hbreak]);
    (destruct (S (length done) <? PROCESS_MAX)%nat; [|other_outcome]);
    (destruct (pipe_procs (redirect_err_of op) w) as [[[[out err] next_in] w1]|]
      eqn:Hprocs; [|other_outcome]);
    [other_outcome|].
  apply pipe_procs_inv in Hprocs as [Hsys ->].
  apply IH. by eapply stages_inv_step.
Qed.

Lemma parse_redirect_wired w toks p w1 procs w' :
  stages_inv w (pipe_ops toks) (completed p) (cur_in p) (tok_iter p) w1 ->
  parse_redirect p w1 = Ok procs w' ->
  wired w toks procs w'.
Proof.
  intros [Hn Hgrow Hops Hdone Hcur Hcover]. unfold parse_redirect.
  assert (Hend : forall out err w2,
    fdt w1 ⊆ fdt w2 -> npipes w2 = npipes w1 ->
    wired_last w w2 (Process (cur_argv p) (cur_in p) out err) ->
    (forall fd, fdt w1 !! fd = None -> is_Some (fdt w2 !! fd) -> fd = out) ->
    terminate_procs (completed p ++ [Process (cur_argv p) (cur_in p) out err]) w2
      = Ok procs w' ->
    wired w toks procs w').
  { intros out err w2 Hsub Hn2 Hlast Hnew. unfold terminate_procs.
    destruct (_ <? _)%nat; [|other_outcome]. intros [= <- <-].
    split.
    - by etrans.
    - rewrite length_app. simpl. lia.
    - rewrite length_app. simpl. lia.
    - intros j q Hj. rewrite length_app. simpl length.
      apply lookup_app_Some in Hj as [Hj|[Hlen Hj]].
      + apply lookup_lt_Some in Hj as Hlt.
        destruct (Hdone j q Hj) as [Hin Hout].
        split; [by eapply wired_in_grow|].
        destruct (decide _) as [?|_]; [lia|by eapply wired_pipe_grow].
      + apply list_lookup_singleton_Some in Hj as [Hj <-].
        assert (j = length (completed p)) as -> by lia.
        split; [by eapply wired_in_grow|].
        destruct (decide _) as [_|?]; [done|lia].
    - intros fd Hfd0 Hfd2.
      destruct (fdt w1 !! fd) as [f|] eqn:Hfd1.
      + destruct (Hcover fd Hfd0 (mk_is_Some _ _ Hfd1)) as [->|(q & Hq & Hfd)].
        * eexists. split; [apply elem_of_app; right; by apply list_elem_of_singleton|].
          by left.
        * exists q. split; [|done]. apply elem_of_app. by left.
      + rewrite (Hnew fd Hfd1 Hfd2).
        eexists. split; [apply elem_of_app; right; by apply list_elem_of_singleton|].
        by right. }
  destruct (is_out_redirect_token (head (tok_iter p))).
  - destruct (tok_iter p) as [|op [|path after]]; try other_outcome.
    unfold redirect_proc_out.
    destruct (sys_open path w1) as [[fd w2]|] eqn:Hopen; [|other_outcome].
    destruct (is_pipe_token (head after)); [other_outcome|].
    apply sys_open_inv in Hopen as [Hfd ->].
    apply Hend; simpl.
    + by apply insert_subseteq.
    + done.
    + right. simpl. split; [by eapply lookup_weaken_None|].
      split; [exists path; by rewrite lookup_insert_eq|].
      destruct (redirect_err_of op); [by left|by right].
    + intros fd' Hnone Hsome. destruct (decide (fd = fd')) as [->|Hne]; [done|].
      rewrite lookup_insert_ne, Hnone in Hsome by done. by destruct Hsome.
  - apply Hend; try done.
    + by left.
    + intros fd' Hnone Hsome. rewrite Hnone in Hsome. by destruct Hsome.
Qed.

Lemma stages_inv_init w toks : stages_inv w (pipe_ops toks) [] STDIN_FILENO toks w.
Proof.
  split; simpl; try done; try lia.
  intros fd Hnone Hsome. rewrite Hnone in Hsome. by destruct Hsome.
Qed.

(** An accepted line is wired. *)
Lemma parse_tokens_wired toks w procs w' :
  parse_tokens toks w = Ok procs w' -> wired w toks procs w'.
Proof.
  unfold parse_tokens. destruct toks as [|t toks]; [other_outcome|].
  destruct (parse_stages _ _ _ _ _) as [p w1| | | |] eqn:Hstages;
    try other_outcome.
  apply (parse_stages_inv w (pipe_ops (t :: toks))) in Hstages as [Hinv _];
    [|apply stages_inv_init].
  by apply parse_redirect_wired.
Qed.



(** ** Descriptor wiring *)



(** ** The loop of [parse_command], without its bound on iterations *)

Lemma read_argv_from_app toks tail : forall i args rest,
  read_argv_from toks i = Some (args, rest) ->
  is_arg (head tail) = false ->
  read_argv_from (toks ++ tail) i = Some (args, rest ++ tail).
Proof.
  induction toks as [|t toks IH]; intros i args rest; simpl.
  - intros [= <- <-] Htail. destruct tail as [|t tail]; [done|].
    simpl in *. by rewrite Htail.
  - destruct (is_arg (Some t)); [|by intros [= <- <-]].
    destruct (i =? ARG_MAX)%nat; [done|].
    destruct (read_argv_from toks (S i)) as [[args' rest']|] eqn:Hrec; [|done].
    intros [= <- <-] Htail. by rewrite (IH _ _ _ Hrec Htail).
Qed.

Lemma read_argv_app toks tail args rest :
  read_argv toks = Argv args rest ->
  is_arg (head tail) = false ->
  read_argv (toks ++ tail) = Argv args (rest ++ tail).
Proof.
  unfold read_argv.
  destruct (read_argv_from toks 0) as [[args' rest']|] eqn:Hfrom; [|done].
  intros Hargv Htail. rewrite (read_argv_from_app _ _ _ _ _ Hfrom Htail).
  destruct args'; [done|]. by injection Hargv as <- <-.
Qed.

Lemma read_argv_shorter toks args op rest :
  read_argv toks = Argv args (op :: rest) -> length rest < length toks.
Proof.
  intros (_ & -> & _)%read_argv_inv. rewrite length_app. simpl. lia.
Qed.

(** Once the bound is the number of tokens it plays no part. *)
Lemma parse_stages_fuel f1 : forall f2 toks cin done w,
  length toks <= f1 -> length toks <= f2 ->
  parse_stages f1 toks cin done w = parse_stages f2 toks cin done w.
Proof.
  induction f1 as [|f1 IH]; intros f2 toks cin dn w H1 H2;
    rewrite !(parse_stages_unfold _ toks);
    destruct (read_argv toks) as [args rest|e] eqn:Hargv; try done;
    destruct rest as [|op rest]; try done;
    apply read_argv_shorter in Hargv;
    destruct (is_pipe_token (Some op)); try done;
    destruct (S (length _) <? PROCESS_MAX)%nat; try done;
    destruct (pipe_procs _ _) as [[[[out err] next_in] w1]|]; try done;
    destruct f2 as [|f2]; try lia.
  apply IH; lia.
Qed.

Lemma parse_loop_eq toks cin done w :
  parse_loop toks cin done w
  = match read_argv toks with
    | ArgvError e => Fail e w
    | Argv args rest => after_argv args rest cin done w
    end.
Proof.
  unfold parse_loop. rewrite parse_stages_unfold.
  destruct (read_argv toks) as [args rest|e] eqn:Hargv; [|done].
  unfold after_argv. destruct rest as [|op rest]; [done|].
  apply read_argv_shorter in Hargv.
  destruct (is_pipe_token (Some op)); [|done].
  destruct (S (length _) <? PROCESS_MAX)%nat; [|done].
  destruct (pipe_procs _ _) as [[[[out err] next_in] w1]|]; [|done].
  destruct (length toks) as [|n]; [lia|].
  unfold parse_loop. apply parse_stages_fuel; lia.
Qed.

(** Tokens after a pipeline that the loop reads to its end: the loop
    reads the pipeline as before and goes on with the tokens. *)
Lemma parse_loop_app tail : forall n toks cin done w p w1,
  length toks <= n ->
  parse_loop toks cin done w = Ok p w1 ->
  tok_iter p = [] ->
  is_arg (head tail) = false ->
  parse_loop (toks ++ tail) cin done w
  = after_argv (cur_argv p) tail (cur_in p) (completed p) w1.
Proof.
  induction n as [|n IH]; intros toks cin dn w p w1 Hlen Hloop Hend Htail;
    rewrite parse_loop_eq in Hloop; rewrite parse_loop_eq;
    (destruct (read_argv toks) as [args rest|e] eqn:Hargv; [|done]);
    rewrite (read_argv_app _ _ _ _ Hargv Htail);
    destruct rest as [|op rest].
  - simpl in Hloop. by injection Hloop as <- <-.
  - apply read_argv_shorter in Hargv. lia.
  - simpl in Hloop. by injection Hloop as <- <-.
  - apply read_argv_shorter in Hargv. simpl in *.
    destruct (is_pipe_token (Some op)).
    + destruct (S (length _) <? PROCESS_MAX)%nat; [|done].
      destruct (pipe_procs _ _) as [[[[out err] next_in] w2]|]; [|done].
      apply (IH rest); [lia|done..].
    + injection Hloop as <- <-. done.
Qed.

(** Where the loop stops: at the end of the tokens or on a redirect
    operator. *)
Lemma parse_stages_rest fuel : forall toks cin done w p w',
  parse_stages fuel toks cin done w = Ok p w' ->
  (exists read, toks = read ++ tok_iter p) /\
  is_arg (head (tok_iter p)) = false /\
  is_pipe_token (head (tok_iter p)) = false.
Proof.
  induction fuel as [|fuel IH]; intros toks cin dn w p w';
    rewrite parse_stages_unfold;
    (destruct (read_argv toks) as [args rest|e] eqn:Hargv; [|done]);
    apply read_argv_inv in Hargv as (_ & -> & _ & Hrest);
    (destruct rest as [|op rest];
       [intros [= <- <-]; split; [by exists args|done]|]);
    (destruct (is_pipe_token (Some op)) eqn:Hpipe;
       [|intros [= <- <-]; split; [by exists args|done]]);
    (destruct (S (length _) <? PROCESS_MAX)%nat; [|done]);
    (destruct (pipe_procs _ _) as [[[[out err] next_in] w1]|]; [|done]);
    [done|].
  intros Hrec. destruct (IH _ _ _ _ _ _ Hrec) as ([read ->] & Harg & Hpipe').
  split; [|done]. exists (args ++ op :: read). by rewrite <- app_assoc.
Qed.

(** A token that is neither an argument nor a pipe operator is a redirect
    operator. *)
Lemma neither_arg_nor_pipe t :
  is_arg (Some t) = false -> is_pipe_token (Some t) = false ->
  is_out_redirect_token (Some t) = true.
Proof.
  unfold is_arg, is_pipe_token, is_out_redirect_token.
  intros Harg Hpipe. rewrite Hpipe, andb_true_r in Harg.
  by apply negb_false_iff.
Qed.

Lemma is_arg_not_pipe_conv t :
  is_pipe_token (Some t) = true ->
  is_arg (Some t) = false /\ is_out_redirect_token (Some t) = false.
Proof.
  unfold is_arg, is_pipe_token, is_out_redirect_token.
  intros Ht. rewrite Ht. apply Ascii.eqb_eq in Ht as ->. by rewrite andb_false_r.
Qed.

Lemma redirect_not_pipe t :
  is_out_redirect_token (Some t) = true ->
  is_pipe_token (Some t) = false /\ is_arg (Some t) = false.
Proof.
  unfold is_arg, is_pipe_token, is_out_redirect_token.
  intros Ht. rewrite Ht. apply Ascii.eqb_eq in Ht as ->. done.
Qed.

Lemma parse_stages_files fuel : forall toks cin dn w p w',
  parse_stages fuel toks cin dn w = Ok p w' ->
  files w' = files w /\ denied w' = denied w /\ fd_limit w' = fd_limit w.
Proof.
  induction fuel as [|fuel IH]; intros toks cin dn w p w';
    rewrite parse_stages_unfold;
    (destruct (read_argv toks) as [args rest|e]; [|done]);
    (destruct rest as [|op rest]; [by intros [= <- <-]|]);
    (destruct (is_pipe_token (Some op)); [|by intros [= <- <-]]);
    (destruct (S (length _) <? PROCESS_MAX)%nat; [|done]);
    (destruct (pipe_procs _ _) as [[[[out err] next_in] w1]|] eqn:Hpipe;
       [|done]);
    [done|].
  apply pipe_procs_inv in Hpipe as [(_ & _ & _ & ->)%sys_pipe_inv _].
  intros Hrec. by destruct (IH _ _ _ _ _ _ Hrec) as (-> & -> & ->).
Qed.

Lemma read_argv_no_argument toks :
  is_arg (head toks) = false -> read_argv toks = ArgvError MissingCommand.
Proof.
  unfold read_argv. destruct toks as [|t toks]; [done|].
  simpl. by intros ->.
Qed.

Lemma terminate_procs_inv ps w procs w' :
  terminate_procs ps w = Ok procs w' ->
  procs = ps /\ w' = w /\ length ps < PROCESS_MAX.
Proof.
  unfold terminate_procs.
  destruct (Nat.ltb_spec (length ps) PROCESS_MAX); [|done].
  by intros [= <- <-].
Qed.

(** An accepted line has between 1 and [PROCESS_MAX - 1] stages. *)
Lemma parse_tokens_length toks w procs w' :
  parse_tokens toks w = Ok procs w' -> 0 < length procs < PROCESS_MAX.
Proof.
  intros Hparse. split; [by apply parse_tokens_wired in Hparse as [_ ? _ _ _]|].
  unfold parse_tokens in Hparse. destruct toks as [|t toks]; [done|].
  destruct (parse_stages _ _ _ _ _) as [p w1| | | |]; try done.
  unfold parse_redirect in Hparse.
  destruct (is_out_redirect_token _).
  - destruct (tok_iter p) as [|op [|path after]]; try done.
    destruct (redirect_proc_out _ _ _) as [[[out err] w2]|]; [|done].
    destruct (is_pipe_token _); [done|].
    by apply terminate_procs_inv in Hparse as (-> & _ & ?).
  - by apply terminate_procs_inv in Hparse as (-> & _ & ?).
Qed.

(** *** What follows an accepted pipeline *)

Section AcceptedPipeline.

(** [pre] is a command line that is accepted and holds no redirect
    operator. *)
Context (pre : list string) (w : world) (procs : list process) (w1 : world).
Hypothesis Hpre : parse_tokens pre w = Ok procs w1.
Hypothesis Hnone : no_redirect pre.

(** The loop reads [pre] to its end, the last stage gets the standard
    output and error, and another stage has room in the array. *)
Lemma accepted_loop :
  exists p,
    parse_loop pre STDIN_FILENO [] w = Ok p w1 /\
    tok_iter p = [] /\
    S (length (completed p)) < PROCESS_MAX /\
    procs = completed p ++
            [Process (cur_argv p) (cur_in p) STDOUT_FILENO STDERR_FILENO].
Proof.
  revert Hpre. unfold parse_tokens, parse_loop.
  destruct pre as [|t pre']; [done|].
  destruct (parse_stages _ _ _ _ _) as [p w'| | | |] eqn:Hstages; try done.
  intros Hredirect. exists p.
  apply parse_stages_rest in Hstages as ([read Hread] & Harg & Hpipe).
  assert (Hend : tok_iter p = []).
  { destruct (tok_iter p) as [|op rest]; [done|]. simpl in *.
    pose proof (neither_arg_nor_pipe op Harg Hpipe) as Hop.
    pose proof Hnone as Hnone'. unfold no_redirect in Hnone'.
    rewrite Hread, Forall_app, Forall_cons in Hnone'.
    destruct Hnone' as (_ & Hop' & _). congruence. }
  unfold parse_redirect, terminate_procs in Hredirect. rewrite Hend in Hredirect.
  simpl in Hredirect.
  destruct (Nat.ltb_spec (length (completed p ++
              [Process (cur_argv p) (cur_in p) STDOUT_FILENO STDERR_FILENO]))
              PROCESS_MAX) as [Hlt|]; [|done].
  injection Hredirect as <- <-. rewrite length_app in Hlt. simpl in Hlt.
  split_and!; try done. lia.
Qed.

Lemma accepted_files : files w1 = files w.
Proof.
  destruct accepted_loop as (p & Hloop & _).
  by apply parse_stages_files in Hloop as (? & _).
Qed.

Lemma accepted_then tail :
  is_arg (head tail) = false ->
  exists p,
    S (length (completed p)) < PROCESS_MAX /\
    parse_tokens (pre ++ tail) w
    = match after_argv (cur_argv p) tail (cur_in p) (completed p) w1 with
      | Ok p' w' => parse_redirect p' w'
      | Fail e w' => Fail e w'
      | Exited => Exited
      | Undefined => Undefined
      | InvalidFree _ _ => Undefined
      end.
Proof.
  intros Htail. destruct accepted_loop as (p & Hloop & Hend & Hroom & _).
  exists p. split; [done|]. unfold parse_tokens.
  destruct pre as [|t pre']; [done|].
  change (parse_stages (length ((t :: pre') ++ tail)) ((t :: pre') ++ tail))
    with (parse_loop ((t :: pre') ++ tail)).
  by rewrite (parse_loop_app tail _ _ _ _ _ _ _ (Nat.le_refl _) Hloop Hend Htail).
Qed.

(** A redirect operator after the pipeline: the loop stops on it. *)
Lemma parse_tokens_redirect op tail :
  is_out_redirect_token (Some op) = true ->
  exists p, parse_tokens (pre ++ op :: tail) w
            = parse_redirect (Pending (completed p) (cur_argv p) (cur_in p)
                                      (op :: tail)) w1.
Proof.
  intros [Hpipe Harg]%redirect_not_pipe.
  destruct (accepted_then (op :: tail) Harg) as (p & _ & ->).
  exists p. unfold after_argv. by rewrite Hpipe.
Qed.

(** A pipe operator and no argument after the pipeline: the pipe is
    created, then [read_argv] finds no command. *)
Lemma parse_tokens_dangling_pipe op tail rd wr w2 :
  is_pipe_token (Some op) = true ->
  is_arg (head tail) = false ->
  sys_pipe w1 = Some (rd, wr, w2) ->
  parse_tokens (pre ++ op :: tail) w = Fail MissingCommand w2.
Proof.
  intros Hop Htail Hpipe.
  destruct (accepted_then (op :: tail) (proj1 (is_arg_not_pipe_conv op Hop)))
    as (p & Hroom & ->).
  unfold after_argv, pipe_procs. rewrite Hop, Hpipe.
  rewrite (proj2 (Nat.ltb_lt _ _) Hroom).
  by rewrite parse_loop_eq, read_argv_no_argument.
Qed.

End AcceptedPipeline.

(** ** Structural errors *)

(** C7, as the code has it.  When the redirect operator that follows an
    accepted pipeline is the last token of the line, parsing fails with
    [MissingOutputFile]. *)
Theorem redirect_without_file (cmdline : string) (w : world)
    (pre : list string) (op : string) (procs : list process) (w1 : world) :
  read_tokens cmdline = Tokens (pre ++ [op]) ->
  parse_tokens pre w = Ok procs w1 ->
  no_redirect pre ->
  is_out_redirect_token (Some op) = true ->
  parse_command cmdline w = Fail MissingOutputFile w1.
Proof.
  intros Htoks Hpre Hnone Hop. unfold parse_command. rewrite Htoks.
  destruct (parse_tokens_redirect pre w procs w1 Hpre Hnone op [] Hop)
    as (p & ->).
  unfold parse_redirect. simpl. by rewrite Hop.
Qed.

(** C6, as the code has it.  When a pipe operator follows the file name
    of the redirection that ends an accepted pipeline, parsing fails: with
    [MisplacedRedirection] when the file can be opened, with
    [CannotOpenOutputFile] when it cannot. *)
Theorem pipe_after_redirection (cmdline : string) (w : world)
    (pre : list string) (op path pip : string) (more : list string)
    (procs : list process) (w1 : world) :
  read_tokens cmdline = Tokens (pre ++ op :: path :: pip :: more) ->
  parse_tokens pre w = Ok procs w1 ->
  no_redirect pre ->
  is_out_redirect_token (Some op) = true ->
  is_pipe_token (Some pip) = true ->
  parse_command cmdline w
  = match sys_open path w1 with
    | Some (_, w2) => Fail MisplacedRedirection w2
    | None => Fail CannotOpenOutputFile w1
    end.
Proof.
  intros Htoks Hpre Hnone Hop Hpip. unfold parse_command. rewrite Htoks.
  destruct (parse_tokens_redirect pre w procs w1 Hpre Hnone op
              (path :: pip :: more) Hop) as (p & ->).
  unfold parse_redirect, redirect_proc_out. simpl. rewrite Hop.
  destruct (sys_open path w1) as [[fd w2]|]; [|done]. by rewrite Hpip.
Qed.

(** C10. On a line that continues an accepted pipeline with a redirect
    operator, a file name and a pipe operator, when the file can be opened
    it exists and is empty once parsing has failed with
    [MisplacedRedirection]: the file system has changed unless the file was
    there and empty, and the turn forks no process. *)
Theorem misplaced_redirection_truncates (cmdline : string) (w : world)
    (pre : list string) (op path pip : string) (more : list string)
    (procs : list process) (w1 : world) (fd : nat) (w2 : world)
    (statuses : list Z) (sc : schedule) :
  read_tokens cmdline = Tokens (pre ++ op :: path :: pip :: more) ->
  parse_tokens pre w = Ok procs w1 ->
  no_redirect pre ->
  is_out_redirect_token (Some op) = true ->
  is_pipe_token (Some pip) = true ->
  sys_open path w1 = Some (fd, w2) ->
  parse_command cmdline w = Fail MisplacedRedirection w2 /\
  files w2 = <[path := EmptyString]> (files w) /\
  files w2 !! path = Some EmptyString /\
  (files w !! path <> Some EmptyString -> files w2 <> files w) /\
  main_turn cmdline statuses sc w = Skipped MisplacedRedirection w2 /\
  forked (main_turn cmdline statuses sc w) = [].
Proof.
  intros Htoks Hpre Hnone Hop Hpip Hopen.
  assert (Hparse : parse_command cmdline w = Fail MisplacedRedirection w2).
  { unfold parse_command. rewrite Htoks.
    destruct (parse_tokens_redirect pre w procs w1 Hpre Hnone op
                (path :: pip :: more) Hop) as (p & ->).
    unfold parse_redirect, redirect_proc_out. simpl.
    by rewrite Hop, Hopen, Hpip. }
  pose proof (accepted_files pre w procs w1 Hpre Hnone) as Hfiles.
  apply sys_open_inv in Hopen as [_ ->].
  unfold main_turn. rewrite Hparse. simpl.
  split; [done|]. rewrite Hfiles.
  split; [done|]. split; [apply lookup_insert_eq|].
  split; [|done].
  intros Hold Heq. apply Hold. rewrite <- Heq. apply lookup_insert_eq.
Qed.

Lemma redirect_without_file_witness :
  parse_command "ls | wc >" (fresh_world 16)
  = Fail MissingOutputFile
      (World (<[4 := PipeWrite 0]> (<[3 := PipeRead 0]> (fdt (fresh_world 16))))
             16 ∅ ∅ 1).
Proof.
  apply (redirect_without_file "ls | wc >" (fresh_world 16) ["ls"; "|"; "wc"] ">"
           [Process ["ls"] 0 4 2; Process ["wc"] 3 1 2]).
  - vm_compute. reflexivity.
  - vm_compute. reflexivity.
  - repeat constructor.
  - reflexivity.
Defined.

(** The claim C7 fails on an operator after the redirect operator: the
    operator token is taken as the path of the file, which is created, and
    the parse goes on to its next test.  Here that test finds the second
    pipe operator, and [parse_command] returns -1 with the diagnostic of a
    misplaced redirection, not with the one of a missing output file. *)
Lemma operator_taken_as_file :
  read_tokens "ls > | |" = Tokens ["ls"; ">"; "|"; "|"] /\
  parse_command "ls > | |" (fresh_world 16)
  = Fail MisplacedRedirection
         (World (<[3 := OutFile "|"]> (fdt (fresh_world 16)))
                16 {["|" := EmptyString]} ∅ 0) /\
  diagnostic MisplacedRedirection <> diagnostic MissingOutputFile.
Proof. split; [|split]; [vm_compute; reflexivity..|discriminate]. Qed.

Lemma pipe_after_redirection_witness :
  parse_command "ls > out | wc" (fresh_world 16)
  = Fail MisplacedRedirection
      (World (<[3 := OutFile "out"]> (fdt (fresh_world 16)))
             16 {["out" := EmptyString]} ∅ 0).
Proof.
  rewrite (pipe_after_redirection "ls > out | wc" (fresh_world 16) ["ls"]
             ">" "out" "|" ["wc"] [Process ["ls"] 0 1 2] (fresh_world 16)).
  - vm_compute. reflexivity.
  - vm_compute. reflexivity.
  - vm_compute. reflexivity.
  - repeat constructor.
  - reflexivity.
  - reflexivity.
Defined.

(** The claim C6 fails on a second redirection: after the file name
    [parse_command] tests only for a pipe operator, so the first file is
    opened, the tokens after its name are ignored and no error is
    returned; the function terminates [procs] and gets to its call of
    [free] as on any line that passes its tests. *)
Lemma second_redirection_unchecked :
  parse_command "ls > out.txt > out2.txt" (fresh_world 16)
  = InvalidFree [Process ["ls"] 0 3 2]
      (World (<[3 := OutFile "out.txt"]> (fdt (fresh_world 16)))
             16 {["out.txt" := EmptyString]} ∅ 0).
Proof. vm_compute. reflexivity. Qed.

Lemma misplaced_redirection_truncates_witness :
  let w := World (fdt (fresh_world 16)) 16 {["out" := "old content"]} ∅ 0 in
  exists w2,
    parse_command "sort > out | wc" w = Fail MisplacedRedirection w2 /\
    files w !! "out" = Some "old content" /\
    files w2 !! "out" = Some EmptyString /\
    forked (main_turn "sort > out | wc" (replicate 8 0%Z) (Schedule [] []) w) = [].
Proof.
  intros w.
  pose (w2 := World (<[3 := OutFile "out"]> (fdt w)) 16
                    {["out" := EmptyString]} ∅ 0).
  assert (Hopen : sys_open "out" w = Some (3, w2)) by (vm_compute; reflexivity).
  assert (Hpre : parse_tokens ["sort"] w = Ok [Process ["sort"] 0 1 2] w)
    by (vm_compute; reflexivity).
  destruct (misplaced_redirection_truncates "sort > out | wc" w ["sort"]
              ">" "out" "|" ["wc"] [Process ["sort"] 0 1 2] w 3 w2
              (replicate 8 0%Z) (Schedule [] [])
              eq_refl Hpre ltac:(repeat constructor) eq_refl eq_refl Hopen)
    as (Hparse & _ & Hfile & _ & _ & Hforked).
  exists w2. split; [exact Hparse|]. split; [reflexivity|].
  split; [exact Hfile | exact Hforked].
Defined.

Lemma skip_blanks_all_blank line :
  all_chars is_blank line = true -> skip_blanks line = EmptyString.
Proof.
  induction line as [|c line IH]; simpl; [done|].
  intros [-> Hline]%andb_prop. auto.
Qed.

Lemma read_tokens_blank line :
  all_chars is_blank line = true -> read_tokens line = Tokens [].
Proof.
  intros Hblank. unfold read_tokens. rewrite read_tokens_from_unfold.
  unfold read_next_token. by rewrite skip_blanks_all_blank.
Qed.

(** C8, as the code has it.  A line without token (in particular an empty
    or all-blank line) makes [parse_command] return -1 without any
    diagnostic; a line whose first token is an operator, and a line where
    an accepted pipeline is followed by a pipe operator and no argument,
    fail with [MissingCommand].  In the three cases the turn forks no
    process. *)
Theorem empty_stage_rejected (cmdline : string) (toks : list string)
    (w : world) (e : parse_error) (w' : world)
    (statuses : list Z) (sc : schedule) :
  read_tokens cmdline = Tokens toks ->
  empty_stage toks w e w' ->
  parse_command cmdline w = Fail e w' /\
  main_turn cmdline statuses sc w = Skipped e w' /\
  forked (main_turn cmdline statuses sc w) = [] /\
  diagnostic e = match toks with
                 | [] => None
                 | _ :: _ => Some "missing command"
                 end /\
  (all_chars is_blank cmdline = true -> toks = []).
Proof.
  intros Htoks Hcase.
  assert (Hparse : parse_command cmdline w = Fail e w').
  { unfold parse_command. rewrite Htoks.
    destruct Hcase as [w|op rest w Hop|pre op tail w procs w1 rd wr w2
                                        Hpre Hnone Hop Htail Hpipe].
    - done.
    - unfold parse_tokens.
      change (parse_stages (length (op :: rest)) (op :: rest))
        with (parse_loop (op :: rest)).
      by rewrite parse_loop_eq, read_argv_no_argument.
    - by rewrite (parse_tokens_dangling_pipe pre w procs w1 Hpre Hnone
                    op tail rd wr w2 Hop Htail Hpipe). }
  unfold main_turn. rewrite Hparse. split_and!; try done.
  - destruct Hcase as [| |[|t pre] ? ? ? ? ? ? ? ? Hpre]; try done.
  - intros Hblank. rewrite (read_tokens_blank _ Hblank) in Htoks.
    by injection Htoks as <-.
Qed.

Lemma empty_stage_rejected_witness :
  let w2 := World (<[4 := PipeWrite 0]> (<[3 := PipeRead 0]>
                     (fdt (fresh_world 16)))) 16 ∅ ∅ 1 in
  parse_command "ls |" (fresh_world 16) = Fail MissingCommand w2 /\
  forked (main_turn "ls |" (replicate 8 0%Z) (Schedule [] []) (fresh_world 16))
  = [].
Proof.
  intros w2.
  assert (Hcase : empty_stage (["ls"] ++ "|" :: []) (fresh_world 16)
                              MissingCommand w2).
  { apply (dangling_pipe ["ls"] "|" [] (fresh_world 16)
             [Process ["ls"] 0 1 2] (fresh_world 16) 3 4 w2).
    - vm_compute. reflexivity.
    - repeat constructor.
    - reflexivity.
    - reflexivity.
    - vm_compute. reflexivity. }
  destruct (empty_stage_rejected "ls |" (["ls"] ++ "|" :: []) (fresh_world 16)
              MissingCommand w2 (replicate 8 0%Z) (Schedule [] [])
              eq_refl Hcase) as (Hparse & _ & Hforked & _).
  split; [exact Hparse | exact Hforked].
Defined.

(** The claim C8 fails on a blank line: [parse_command] returns -1 through
    its first test, which prints no diagnostic, and not through the
    "missing command" error of [read_argv]. *)
Lemma blank_line_silent :
  parse_command "   " (fresh_world 16) = Fail BlankLine (fresh_world 16) /\
  diagnostic BlankLine = None /\
  diagnostic MissingCommand = Some "missing command".
Proof. split_and!; vm_compute; reflexivity. Qed.

(** ** The bound on the number of stages *)

(** C2 on the code: [parse_command] has no test on the number of stages.
    On a pipeline of nine stages the ninth pointer is stored outside the
    [PROCESS_MAX] slots of [procs]; no error is returned.  With eight
    stages it is the terminating NULL that is stored outside.  With seven
    the stores stay inside the array, and the function gets to the call of
    [free] that ends it on every line that passes its tests. *)
Theorem nine_stages_overrun :
  parse_command "a|b|c|d|e|f|g|h|i" (fresh_world 64) = Undefined /\
  parse_command "a|b|c|d|e|f|g|h" (fresh_world 64) = Undefined /\
  (exists procs w',
     parse_command "a|b|c|d|e|f|g" (fresh_world 64) = InvalidFree procs w' /\
     length procs = 7).
Proof.
  split; [vm_compute; reflexivity|]. split; [vm_compute; reflexivity|].
  eexists _, _. split; [vm_compute; reflexivity|reflexivity].
Qed.

(** ** Closing descriptors *)

Lemma elem_of_nonstd_fds p fd :
  fd ∈ nonstd_fds p <->
  (fd = fd_in p /\ fd <> STDIN_FILENO) \/
  (fd = fd_out p /\ fd <> STDOUT_FILENO) \/
  (fd = fd_err p /\ fd <> STDERR_FILENO).
Proof.
  unfold nonstd_fds. rewrite !elem_of_app.
  repeat destruct (decide _);
    rewrite ?list_elem_of_singleton, ?elem_of_nil; lia.
Qed.

Lemma close_nonstd_fds_lookup p t fd :
  close_nonstd_fds p t !! fd
  = if decide (fd ∈ nonstd_fds p) then None else t !! fd.
Proof.
  unfold close_nonstd_fds, sys_close.
  destruct (decide (fd ∈ nonstd_fds p)) as [Hin|Hout];
    rewrite elem_of_nonstd_fds in *;
    repeat destruct (decide (_ = _));
    rewrite ?lookup_delete; repeat case_decide; try done; exfalso; lia.
Qed.

Lemma close_all_closed ps : forall t q fd,
  q ∈ ps -> fd ∈ nonstd_fds q -> close_all ps t !! fd = None.
Proof.
  induction ps as [|p ps IH] using rev_ind; intros t q fd Hq Hfd.
  - by apply elem_of_nil in Hq.
  - unfold close_all. rewrite foldl_app. simpl.
    rewrite close_nonstd_fds_lookup. case_decide; [done|].
    apply elem_of_app in Hq as [Hq|Hq%list_elem_of_singleton]; [|by subst].
    by apply (IH t q).
Qed.

Lemma close_all_kept ps : forall t fd,
  (forall q, q ∈ ps -> fd ∉ nonstd_fds q) -> close_all ps t !! fd = t !! fd.
Proof.
  induction ps as [|p ps IH]; intros t fd Hfd; [done|].
  unfold close_all in *. simpl. rewrite IH, close_nonstd_fds_lookup.
  - case_decide as Hin; [|done]. destruct (Hfd p); [by left|done].
  - intros q Hq. apply Hfd. by right.
Qed.

Lemma close_all_app ps qs t :
  close_all (ps ++ qs) t = close_all qs (close_all ps t).
Proof. apply foldl_app. Qed.

(** ** The children of [run_procs] *)

(** The child forked for the stage at position [n] runs [child_branch] on
    the table the shell has after closing the descriptors of the stages
    before it. *)
Lemma spawn_children procs : forall fk t i n pid ce,
  spawned_children (spawn procs fk t i) !! n = Some (pid, ce) ->
  exists proc,
    procs !! n = Some proc /\
    ce = child_branch proc (drop (S n) procs) (close_all (take n procs) t).
Proof.
  induction procs as [|proc later IH]; intros fk t i n pid ce; [done|].
  simpl. destruct fk as [|[pid'|] fk']; [done| |done].
  destruct (i <? PROCESS_MAX)%nat; [|done].
  destruct (spawn later fk' (close_nonstd_fds proc t) (S i)) eqn:Hrec;
    [| |done].
  all: destruct n as [|n]; simpl;
    [intros [= <- <-]; by exists proc|].
  all: intros Hn; apply (IH fk' (close_nonstd_fds proc t) (S i) n pid ce);
    by rewrite Hrec.
Qed.

Lemma close_nonstd_fds_None p t fd :
  t !! fd = None -> close_nonstd_fds p t !! fd = None.
Proof. intros Hfd. rewrite close_nonstd_fds_lookup. by case_decide. Qed.

Lemma close_all_None ps : forall t fd,
  t !! fd = None -> close_all ps t !! fd = None.
Proof.
  induction ps as [|p ps IH]; intros t fd Hfd; [done|].
  apply IH. by apply close_nonstd_fds_None.
Qed.

(** The stages other than the one at position [i]. *)
Lemma elem_of_others (procs : list process) i q :
  q ∈ take i procs ++ drop (S i) procs ->
  exists j, j <> i /\ procs !! j = Some q.
Proof.
  intros [Hq|Hq]%elem_of_app.
  - apply elem_of_take in Hq as (j & Hj & Hlt). exists j. split; [lia|done].
  - apply list_elem_of_lookup in Hq as [j Hj]. rewrite lookup_drop in Hj.
    exists (S i + j). split; [lia|done].
Qed.

Lemma others_elem_of (procs : list process) i j q :
  j <> i -> procs !! j = Some q -> q ∈ take i procs ++ drop (S i) procs.
Proof.
  intros Hne Hj. apply elem_of_app.
  destruct (decide (j < i)) as [Hlt|Hge].
  - left. apply elem_of_take. by exists j.
  - right. apply list_elem_of_lookup. exists (j - S i).
    rewrite lookup_drop. by replace (S i + (j - S i)) with j by lia.
Qed.

(** ** Separation of the stages of a wired pipeline *)

Lemma stage_label_inj w len i j f :
  stage_label w len i f -> stage_label w len j f -> i = j.
Proof.
  destruct f; simpl; try done; try lia.
  intros (i' & -> & ?) (j' & -> & ?). lia.
Qed.

Lemma std_open_fresh w fd :
  std_open w -> fdt w !! fd = None -> STDERR_FILENO < fd.
Proof.
  intros Hstd Hfd. destruct (decide (STDERR_FILENO < fd)) as [|Hle]; [done|].
  destruct (Hstd fd ltac:(lia)) as [f Hf]. congruence.
Qed.

Lemma sys_dup2_open oldfd newfd t f :
  t !! oldfd = Some f -> sys_dup2 oldfd newfd t = Some (<[newfd := f]> t).
Proof. unfold sys_dup2. by intros ->. Qed.

Section WiredPipeline.

Context (w w' : world) (toks : list string) (procs : list process).
Hypothesis Hwired : wired w toks procs w'.
Hypothesis Hstd : std_open w.

Lemma wired_slots j p :
  procs !! j = Some p ->
  slot_wired w w' (length procs) j STDIN_FILENO (fd_in p) /\
  slot_wired w w' (length procs) j STDOUT_FILENO (fd_out p) /\
  slot_wired w w' (length procs) j STDERR_FILENO (fd_err p).
Proof.
  intros Hp. destruct (wired_stage _ _ _ _ Hwired j p Hp) as [Hin Hout].
  assert (Hslot_in : slot_wired w w' (length procs) j STDIN_FILENO (fd_in p)).
  { destruct j as [|j']; [by left|]. destruct Hin as [H0 H1].
    right. split; [done|]. eexists. split; [done|]. simpl. by exists j'. }
  split; [done|]. destruct (decide (S j = length procs)) as [Hlast|Hmid].
  - destruct Hout as [[-> ->]|(H0 & [path H1] & Herr)]; [split; by left|].
    assert (Hslot : slot_wired w w' (length procs) j STDOUT_FILENO (fd_out p)).
    { right. split; [done|]. by eexists. }
    split; [done|]. destruct Herr as [->| ->]; [|by left].
    right. split; [done|]. by eexists.
  - destruct Hout as (op & _ & H0 & H1 & Herr).
    assert (Hslot : slot_wired w w' (length procs) j STDOUT_FILENO (fd_out p)).
    { right. split; [done|]. by eexists. }
    split; [done|]. rewrite Herr. destruct (redirect_err_of op); [|by left].
    right. split; [done|]. by eexists.
Qed.

(** A descriptor that [close_nonstd_fds] closes for one stage is in no
    slot of another stage. *)
Lemma wired_separate i j p q fd :
  procs !! i = Some p -> procs !! j = Some q -> j <> i ->
  fd ∈ nonstd_fds q ->
  fd <> fd_in p /\ fd <> fd_out p /\ fd <> fd_err p.
Proof.
  intros Hp Hq Hne Hfd.
  destruct (wired_slots _ _ Hp) as (Hpi & Hpo & Hpe).
  destruct (wired_slots _ _ Hq) as (Hqi & Hqo & Hqe).
  assert (Hlab : fdt w !! fd = None /\
                 exists f, fdt w' !! fd = Some f /\
                           stage_label w (length procs) j f).
  { apply elem_of_nonstd_fds in Hfd as [[-> Hn]|[[-> Hn]|[-> Hn]]].
    - by destruct Hqi.
    - by destruct Hqo.
    - by destruct Hqe. }
  destruct Hlab as (Hfresh & f & Hf & Hlab).
  apply (std_open_fresh _ _ Hstd) in Hfresh.
  assert (Hslot : forall std y, std <= STDERR_FILENO ->
            slot_wired w w' (length procs) i std y -> fd <> y).
  { intros std y Hle [->|(_ & g & Hg & Hlab')] ->; [lia|].
    apply Hne. rewrite Hf in Hg. injection Hg as <-.
    by eapply stage_label_inj. }
  split_and!;
    [apply (Hslot STDIN_FILENO)|apply (Hslot STDOUT_FILENO)
    |apply (Hslot STDERR_FILENO)];
    try done; unfold STDIN_FILENO, STDOUT_FILENO, STDERR_FILENO; lia.
Qed.

End WiredPipeline.

Lemma run_procs_children procs statuses sc t n x :
  children_of (run_procs procs statuses sc t) !! n = Some x ->
  spawned_children (spawn procs (forks sc) t 0) !! n = Some x.
Proof.
  unfold run_procs. destruct (spawn procs (forks sc) t 0); try done.
  destruct (store _ _ _); [|done]. by destruct (reap _ _ _ _).
Qed.

(** ** Process orchestration *)

Lemma nonstd_in_triple p fd : fd ∈ nonstd_fds p -> in_triple p fd.
Proof.
  intros [[-> _]|[[-> _]|[-> _]]]%elem_of_nonstd_fds; unfold in_triple; auto.
Qed.

Lemma in_triple_nonstd p fd :
  in_triple p fd -> STDERR_FILENO < fd -> fd ∈ nonstd_fds p.
Proof.
  unfold in_triple, STDERR_FILENO. intros Hfd Hgt. apply elem_of_nonstd_fds.
  unfold STDIN_FILENO, STDOUT_FILENO, STDERR_FILENO.
  destruct Hfd as [->|[->| ->]]; [left|right; left|right; right];
    split; try done; lia.
Qed.

(** The stages that the parse of a line has built are wired in this
    sense, in a shell that has its standard streams open. *)
Lemma wired_wired_stages w w' toks procs :
  wired w toks procs w' -> std_open w -> wired_stages (fdt w') procs.
Proof.
  intros Hwired Hstd.
  assert (Hslot : forall j p std y, procs !! j = Some p ->
            std <= STDERR_FILENO ->
            slot_wired w w' (length procs) j std y ->
            is_Some (fdt w' !! y) /\ (y = std \/ fdt w !! y = None)).
  { intros j p std y Hp Hle [->|(Hfresh & f & Hf & _)].
    - split; [|by left]. destruct (Hstd std Hle) as [f Hf].
      exists f. eapply lookup_weaken; [done|apply Hwired].
    - split; [by exists f|by right]. }
  split.
  - intros p fd [j Hp]%list_elem_of_lookup Hfd.
    destruct (wired_slots _ _ _ _ Hwired j p Hp) as (Hsi & Hso & Hse).
    destruct Hfd as [->|[->| ->]].
    + apply (Hslot j p STDIN_FILENO); [done|vm_compute; lia|done].
    + apply (Hslot j p STDOUT_FILENO); [done|vm_compute; lia|done].
    + apply (Hslot j p STDERR_FILENO); [done|vm_compute; lia|done].
  - intros p fd [j Hp]%list_elem_of_lookup Hfd.
    destruct (wired_slots _ _ _ _ Hwired j p Hp) as (Hsi & Hso & Hse).
    apply elem_of_nonstd_fds in Hfd as [[-> Hne]|[[-> Hne]|[-> Hne]]].
    + destruct (Hslot j p STDIN_FILENO _ Hp ltac:(vm_compute; lia) Hsi)
        as [_ [?|Hfresh]]; [done|]. by eapply std_open_fresh.
    + destruct (Hslot j p STDOUT_FILENO _ Hp ltac:(vm_compute; lia) Hso)
        as [_ [?|Hfresh]]; [done|]. by eapply std_open_fresh.
    + destruct (Hslot j p STDERR_FILENO _ Hp ltac:(vm_compute; lia) Hse)
        as [_ [?|Hfresh]]; [done|]. by eapply std_open_fresh.
  - intros i j p q fd Hp Hq Hne Hfd Hin.
    destruct (wired_separate _ _ _ _ Hwired Hstd i j p q fd Hp Hq Hne Hfd)
      as (H0 & H1 & H2).
    by destruct Hin as [?|[?|?]].
Qed.

(** The child of a stage of a wired pipeline. *)
Lemma child_branch_stages t procs i p :
  wired_stages t procs ->
  procs !! i = Some p ->
  exists tc,
    child_branch p (drop (S i) procs) (close_all (take i procs) t)
      = Execvp (argv p) tc /\
    tc !! STDIN_FILENO = t !! fd_in p /\
    tc !! STDOUT_FILENO = t !! fd_out p /\
    tc !! STDERR_FILENO = t !! fd_err p /\
    forall fd, STDERR_FILENO < fd ->
      (forall q, q ∈ procs -> in_triple q fd -> tc !! fd = None) /\
      ((forall q, q ∈ procs -> ~ in_triple q fd) -> tc !! fd = t !! fd).
Proof.
  intros [Hopen Habove Hapart] Hp. unfold child_branch.
  change (foldl _ ?t ?ps) with (close_all ps t). rewrite <- close_all_app.
  set (others := take i procs ++ drop (S i) procs).
  set (T := close_all others t).
  assert (Hmem : p ∈ procs) by (by eapply list_elem_of_lookup_2).
  assert (Hkept : forall y, in_triple p y -> T !! y = t !! y).
  { intros y Hy. apply close_all_kept. intros q Hq Hin.
    apply elem_of_others in Hq as (j & Hne & Hq).
    by apply (Hapart i j p q y). }
  assert (Hstd_kept : forall fd, fd ∈ nonstd_fds p -> fd <= 2 -> False).
  { intros fd Hfd Hle. specialize (Habove p fd Hmem Hfd).
    unfold STDERR_FILENO in Habove. lia. }
  assert (Hslot : forall y, in_triple p y ->
            exists f, T !! y = Some f /\ t !! y = Some f).
  { intros y Hy. destruct (Hopen p y Hmem Hy) as [f Hf].
    exists f. by rewrite Hkept. }
  destruct (Hslot (fd_in p)) as (f_in & Hf_in & Ht_in);
    [unfold in_triple; auto|].
  destruct (Hslot (fd_out p)) as (f_out & Hf_out & Ht_out);
    [unfold in_triple; auto|].
  destruct (Hslot (fd_err p)) as (f_err & Hf_err & Ht_err);
    [unfold in_triple; auto|].
  assert (Hout : fd_out p <> 0).
  { intros Heq. apply (Hstd_kept (fd_out p)); [|lia].
    apply elem_of_nonstd_fds. right; left. split; [done|].
    unfold STDOUT_FILENO. lia. }
  assert (Herr : fd_err p <> 0 /\ fd_err p <> 1).
  { split; intros Heq; (apply (Hstd_kept (fd_err p)); [|lia]);
      apply elem_of_nonstd_fds; right; right; (split; [done|]);
      unfold STDERR_FILENO; lia. }
  unfold exec_proc, STDIN_FILENO, STDOUT_FILENO, STDERR_FILENO.
  rewrite (sys_dup2_open _ _ _ f_in) by done.
  rewrite (sys_dup2_open _ _ _ f_out) by (by rewrite lookup_insert_ne).
  rewrite (sys_dup2_open _ _ _ f_err)
    by (rewrite !lookup_insert_ne; [done|lia|lia]).
  eexists. split; [done|]. split_and!.
  - rewrite close_nonstd_fds_lookup.
    case_decide as Hfd; [destruct (Hstd_kept _ Hfd); lia|].
    by rewrite !lookup_insert_ne, lookup_insert_eq, Ht_in by lia.
  - rewrite close_nonstd_fds_lookup.
    case_decide as Hfd; [destruct (Hstd_kept _ Hfd); lia|].
    by rewrite !lookup_insert_ne, lookup_insert_eq, Ht_out by lia.
  - rewrite close_nonstd_fds_lookup.
    case_decide as Hfd; [destruct (Hstd_kept _ Hfd); lia|].
    by rewrite lookup_insert_eq, Ht_err.
  - intros fd Hgt. rewrite close_nonstd_fds_lookup. split.
    + intros q [j Hq]%list_elem_of_lookup Hin.
      pose proof (in_triple_nonstd q fd Hin ltac:(unfold STDERR_FILENO; lia))
        as Hnon.
      case_decide as Hown; [done|]. rewrite !lookup_insert_ne by lia.
      destruct (decide (j = i)) as [->|Hne]; [congruence|].
      apply (close_all_closed _ _ q); [by eapply others_elem_of|done].
    + intros Hnone. case_decide as Hown.
      { destruct (Hnone p Hmem). by apply nonstd_in_triple. }
      rewrite !lookup_insert_ne by lia. apply close_all_kept.
      intros q Hq Hin. apply elem_of_others in Hq as (j & _ & Hq).
      apply (Hnone q); [by eapply list_elem_of_lookup_2|].
      by apply nonstd_in_triple.
Qed.

(** C1, as the code has it.  In the child forked for stage [i] of a wired
    pipeline, when the target program is invoked the three standard slots
    are duplicated from the input, output and error descriptors of the
    stage, and every descriptor above them that is in the triple of a
    stage of the pipeline, its own stage included, is closed.  A descriptor
    that is in no stage's triple is left as the shell had it. *)
Theorem child_closes_pipe_ends (procs : list process) (statuses : list Z)
    (sc : schedule) (t : gmap nat ofile)
    (i : nat) (pid : positive) (ce : child_end) :
  wired_stages t procs ->
  children_of (run_procs procs statuses sc t) !! i = Some (pid, ce) ->
  exists proc tc,
    procs !! i = Some proc /\
    ce = Execvp (argv proc) tc /\
    tc !! STDIN_FILENO = t !! fd_in proc /\
    tc !! STDOUT_FILENO = t !! fd_out proc /\
    tc !! STDERR_FILENO = t !! fd_err proc /\
    forall fd, STDERR_FILENO < fd ->
      (forall q, q ∈ procs -> in_triple q fd -> tc !! fd = None) /\
      ((forall q, q ∈ procs -> ~ in_triple q fd) -> tc !! fd = t !! fd).
Proof.
  intros Hwired Hchild.
  apply run_procs_children, spawn_children in Hchild as (proc & Hproc & ->).
  destruct (child_branch_stages _ _ _ _ Hwired Hproc)
    as (tc & Hexec & H0 & H1 & H2 & Hrest).
  by exists proc, tc.
Qed.

Lemma fresh_world_std_open limit : std_open (fresh_world limit).
Proof.
  intros fd Hle. unfold STDERR_FILENO in Hle.
  destruct fd as [|[|[|fd]]]; [by eexists..|lia].
Qed.

Lemma child_closes_pipe_ends_witness :
  exists (proc : process) (tc : gmap nat ofile),
    [Process ["ls"] 0 4 2; Process ["wc"; "-l"] 3 1 2] !! 1 = Some proc /\
    tc !! 0 = Some (PipeRead 0) /\ tc !! 3 = None /\ tc !! 4 = None.
Proof.
  pose (w' := World (<[4 := PipeWrite 0]> (<[3 := PipeRead 0]>
                       (fdt (fresh_world 16))))
                    16 ∅ ∅ 1).
  pose (procs := [Process ["ls"] 0 4 2; Process ["wc"; "-l"] 3 1 2]).
  pose (sc := Schedule [Some 100%positive; Some 101%positive]
                       [(101%positive, 0%Z); (100%positive, 0%Z)]).
  pose (ce := Execvp ["wc"; "-l"]
                (<[2 := Inherited 2]> (<[1 := Inherited 1]>
                   {[0 := PipeRead 0]}))).
  assert (Hparse : parse_tokens ["ls"; "|"; "wc"; "-l"] (fresh_world 16)
                   = Ok procs w')
    by (vm_compute; reflexivity).
  assert (Hstages : wired_stages (fdt w') procs)
    by (eapply wired_wired_stages;
        [exact (parse_tokens_wired _ _ _ _ Hparse)
        |apply fresh_world_std_open]).
  assert (Hchild : children_of (run_procs procs (replicate 8 0%Z) sc (fdt w'))
                   !! 1 = Some (101%positive, ce))
    by (vm_compute; reflexivity).
  destruct (child_closes_pipe_ends _ _ _ _ _ _ _ Hstages Hchild)
    as (proc & tc & Hproc & _ & Hin & _ & _ & Hclosed).
  exists proc, tc. split; [exact Hproc|].
  injection Hproc as <-. split; [exact Hin|].
  split.
  - apply (proj1 (Hclosed 3 ltac:(vm_compute; lia)) (Process ["wc"; "-l"] 3 1 2)).
    + apply list_elem_of_further, list_elem_of_here.
    + by left.
  - apply (proj1 (Hclosed 4 ltac:(vm_compute; lia)) (Process ["ls"] 0 4 2)).
    + apply list_elem_of_here.
    + by right; left.
Defined.

(** The claim C1 fails on a pipe end that belongs to no stage.  The
    rejected line "ls |" leaves both ends of its pipe open in the shell;
    the stages then built for "cat | wc" are wired on descriptors 5 and 6,
    and the child of stage 0 is given the arguments of "cat" with
    descriptor 4, the write end of the first pipe, still open, though it
    is not in the triple of its stage. *)
Lemma leaked_pipe_end_inherited :
  let w1 := World (<[4 := PipeWrite 0]> (<[3 := PipeRead 0]>
                     (fdt (fresh_world 16)))) 16 ∅ ∅ 1 in
  let w2 := World (<[6 := PipeWrite 1]> (<[5 := PipeRead 1]> (fdt w1)))
                  16 ∅ ∅ 2 in
  let procs := [Process ["cat"] 0 6 2; Process ["wc"] 5 1 2] in
  let tc : gmap nat ofile :=
    <[4 := PipeWrite 0]> (<[3 := PipeRead 0]> (<[2 := Inherited 2]>
      (<[1 := PipeWrite 1]> {[0 := Inherited 0]}))) in
  parse_command "ls |" (fresh_world 16) = Fail MissingCommand w1 /\
  parse_command "cat | wc" w1 = InvalidFree procs w2 /\
  wired_stages (fdt w2) procs /\
  children_of (run_procs procs (replicate 8 0%Z)
                 (Schedule [Some 7%positive; Some 8%positive]
                           [(7%positive, 0%Z); (8%positive, 0%Z)])
                 (fdt w2)) !! 0
  = Some (7%positive, Execvp ["cat"] tc) /\
  tc !! 4 = Some (PipeWrite 0) /\
  ~ in_triple (Process ["cat"] 0 6 2) 4.
Proof.
  intros w1 w2 procs tc.
  assert (Hparse : parse_tokens ["cat"; "|"; "wc"] w1 = Ok procs w2)
    by (vm_compute; reflexivity).
  split; [vm_compute; reflexivity|]. split; [vm_compute; reflexivity|].
  split.
  { eapply wired_wired_stages; [exact (parse_tokens_wired _ _ _ _ Hparse)|].
    intros fd Hle. unfold STDERR_FILENO in Hle.
    destruct fd as [|[|[|fd]]]; [by eexists..|lia]. }
  split; [vm_compute; reflexivity|]. split; [vm_compute; reflexivity|].
  unfold in_triple. simpl. lia.
Qed.

Lemma spawn_all procs : forall pids more t i,
  length pids = length procs ->
  i + length procs <= PROCESS_MAX ->
  exists children t',
    spawn procs ((Some <$> pids) ++ more) t i = Spawned pids children t' /\
    children.*1 = pids.
Proof.
  induction procs as [|proc later IH]; intros pids more t i Hlen Hcap.
  - destruct pids; [|done]. by exists [], t.
  - destruct pids as [|pid pids]; [done|]. rewrite fmap_cons. simpl in *.
    rewrite (proj2 (Nat.ltb_lt i PROCESS_MAX)) by lia.
    destruct (IH pids more (close_nonstd_fds proc t) (S i)) as (cs & t' & -> & Hcs);
      [lia|lia|].
    eexists _, t'. split; [done|]. rewrite fmap_cons. simpl. by f_equal.
Qed.

(** ** Waiting for the children *)

Lemma waitpid_inv pid zs : forall status zs',
  waitpid pid zs = Some (status, zs') ->
  (pid, status) ∈ zs /\
  (forall q s, q <> pid -> (q, s) ∈ zs' <-> (q, s) ∈ zs) /\
  (NoDup zs.*1 -> NoDup zs'.*1).
Proof.
  induction zs as [|[p st] zs IH]; intros status zs'; simpl; [done|].
  destruct (Pos.eqb_spec p pid) as [->|Hne].
  - intros [= <- <-]. split_and!.
    + by left.
    + intros q s Hq. rewrite elem_of_cons. split; [by right|].
      by intros [[= ? ?]|?].
    + by intros [_ ?]%NoDup_cons.
  - destruct (waitpid pid zs) as [[st' rest]|] eqn:Hrec; [|done].
    intros [= <- <-]. destruct (IH _ _ eq_refl) as (Hin & Hother & Hnodup).
    split_and!.
    + by right.
    + intros q s Hq. rewrite !elem_of_cons, Hother by done. done.
    + simpl. intros [Hp Hzs]%NoDup_cons. apply NoDup_cons. split; [|auto].
      intros [[q s] [Hq Hin']]%list_elem_of_fmap. simpl in Hq. subst q.
      apply Hother in Hin'; [|done]. apply Hp.
      apply list_elem_of_fmap. by exists (p, s).
Qed.

Lemma waitpid_terminated pid zs :
  pid ∈ zs.*1 -> is_Some (waitpid pid zs).
Proof.
  induction zs as [|[p st] zs IH]; simpl; [by intros ?%elem_of_nil|].
  destruct (Pos.eqb_spec p pid) as [->|Hne]; [by eexists|].
  intros [?|Hin]%elem_of_cons; [done|].
  destruct (IH Hin) as [[st' rest] ->]. by eexists.
Qed.

Lemma NoDup_fst_status (zs : list (positive * Z)) pid s1 s2 :
  NoDup zs.*1 -> (pid, s1) ∈ zs -> (pid, s2) ∈ zs -> s1 = s2.
Proof.
  intros Hnodup H1 H2.
  apply (elem_of_list_to_map (M := gmap positive) (A := Z)) in H1, H2; [|done..].
  congruence.
Qed.

Lemma store_in_range {A} i (x : A) arr :
  i < length arr -> store i x arr = Some (<[i := x]> arr).
Proof. intros Hlt. unfold store. by rewrite (proj2 (Nat.ltb_lt _ _) Hlt). Qed.

(** The second loop of [run_procs] returns when the children terminate,
    whatever the order; it fills [statuses[0..i-1]], each slot with the exit
    status of the child whose pid is in the same slot of [pids]. *)
Lemma reap_statuses i : forall pids zs statuses,
  i <= length pids -> i <= length statuses ->
  NoDup (take i pids) -> NoDup zs.*1 ->
  (forall pid, pid ∈ take i pids -> pid ∈ zs.*1) ->
  exists statuses' zs',
    reap i pids zs statuses = Reaped statuses' zs' /\
    length statuses' = length statuses /\
    (forall j, i <= j -> statuses' !! j = statuses !! j) /\
    (forall j pid status, j < i -> pids !! j = Some pid ->
       (pid, status) ∈ zs -> statuses' !! j = Some (WEXITSTATUS status)).
Proof.
  induction i as [|i IH]; intros pids zs statuses Hpids Hcap Hnodup Hzs Hended.
  - exists statuses, zs. split_and!; try done. intros; lia.
  - simpl. destruct (lookup_lt_is_Some_2 pids i ltac:(lia)) as [pid Hpid].
    rewrite Hpid. rewrite (take_S_r _ _ _ Hpid) in Hnodup, Hended.
    apply NoDup_app in Hnodup as (Hnodup & Hfresh & _).
    destruct (waitpid_terminated pid zs) as [[status zs1] Hwait].
    { apply Hended, elem_of_app. right. by apply list_elem_of_singleton. }
    rewrite Hwait, store_in_range by lia.
    apply waitpid_inv in Hwait as (Hin & Hother & Hzs1).
    assert (Hne : forall q, q ∈ take i pids -> q <> pid).
    { intros q Hq ->. apply (Hfresh pid Hq). by apply list_elem_of_singleton. }
    destruct (IH pids zs1 (<[i := WEXITSTATUS status]> statuses))
      as (statuses' & zs' & -> & Hlen & Hkeep & Hset).
    + lia.
    + rewrite length_insert. lia.
    + done.
    + auto.
    + intros q Hq. specialize (Hne q Hq).
      assert (Hq' : q ∈ zs.*1) by (apply Hended, elem_of_app; by left).
      apply list_elem_of_fmap in Hq' as [[q' s] [-> Hq']].
      apply list_elem_of_fmap. exists (q', s). split; [done|]. by apply Hother.
    + exists statuses', zs'. rewrite length_insert in Hlen. split_and!; try done.
      * intros j Hj. rewrite Hkeep by lia. apply list_lookup_insert_ne. lia.
      * intros j q s Hj Hq Hs. destruct (decide (j = i)) as [->|Hji].
        -- rewrite Hkeep by lia. rewrite Hq in Hpid. injection Hpid as ->.
           rewrite (NoDup_fst_status zs pid s status) by done.
           apply list_lookup_insert_eq. lia.
        -- apply (Hset j q s); [lia|done|]. apply Hother; [|done].
           apply Hne. apply elem_of_take. exists j. split; [done|lia].
Qed.

Lemma WEXITSTATUS_nonneg status : (0 <= WEXITSTATUS status)%Z.
Proof.
  unfold WEXITSTATUS. apply Z.shiftr_nonneg, Z.land_nonneg. right. lia.
Qed.

Lemma reported_prefix n : forall statuses,
  (forall j, j < n -> exists v, statuses !! j = Some v /\ v <> (-1)%Z) ->
  statuses !! n = Some (-1)%Z ->
  reported statuses = Some (take n statuses).
Proof.
  induction n as [|n IH]; intros statuses Hbefore Hend.
  - destruct statuses as [|s statuses]; [done|]. injection Hend as ->. done.
  - destruct statuses as [|s statuses]; [done|].
    destruct (Hbefore 0 ltac:(lia)) as (v & [= <-] & Hv). simpl.
    rewrite (proj2 (Z.eqb_neq s (-1)) Hv), IH; [done| |done].
    intros j Hj. apply (Hbefore (S j)). lia.
Qed.

(** What [run_procs] leaves in the array of the caller. *)
Lemma run_procs_array procs statuses sc t pids :
  length procs < length statuses ->
  length procs <= PROCESS_MAX ->
  length pids = length procs ->
  take (length procs) (forks sc) = Some <$> pids ->
  NoDup pids -> NoDup (ended sc).*1 ->
  (forall pid, pid ∈ pids -> pid ∈ (ended sc).*1) ->
  exists statuses' children t',
    spawn procs (forks sc) t 0 = Spawned pids children t' /\
    children.*1 = pids /\
    run_procs procs statuses sc t = Ran statuses' children t' /\
    length statuses' = length statuses /\
    (forall j, length procs < j -> statuses' !! j = statuses !! j) /\
    statuses' !! length procs = Some (-1)%Z /\
    (forall j pid status, pids !! j = Some pid -> (pid, status) ∈ ended sc ->
       statuses' !! j = Some (WEXITSTATUS status)).
Proof.
  intros Hcap Hmax Hlen Hforks Hnodup Hended Hall. unfold run_procs.
  rewrite <- (take_drop (length procs) (forks sc)), Hforks.
  destruct (spawn_all procs pids (drop (length procs) (forks sc)) t 0 Hlen)
    as (children & t' & -> & Hchildren); [lia|].
  rewrite store_in_range by lia.
  destruct (reap_statuses (length pids) pids (ended sc)
              (<[length pids := (-1)%Z]> statuses))
    as (statuses' & zs' & -> & Hlen' & Hkeep & Hset).
  - done.
  - rewrite length_insert. lia.
  - by rewrite firstn_all.
  - done.
  - by rewrite firstn_all.
  - rewrite length_insert in Hlen'.
    exists statuses', children, t'. rewrite Hlen in *. split_and!; try done.
    + intros j Hj. rewrite Hkeep by lia. apply list_lookup_insert_ne. lia.
    + rewrite Hkeep by lia. apply list_lookup_insert_eq. lia.
    + intros j pid status Hj. apply Hset; [|done].
      apply lookup_lt_Some in Hj. lia.
Qed.

(** X15. When [run_procs] runs a pipeline of N stages (N below the capacity
    of the caller's array and at most [PROCESS_MAX]) whose children all
    terminate, it returns, and the status list it reports holds exactly N
    exit statuses followed by the sentinel -1: the status at position [i]
    is the exit status of the child forked for stage [i], and the result
    is the same for every order in which the children terminate. *)
Theorem run_procs_statuses (procs : list process) (statuses : list Z)
    (sc : schedule) (t : gmap nat ofile) (pids : list positive) :
  length procs < length statuses ->
  length procs <= PROCESS_MAX ->
  length pids = length procs ->
  take (length procs) (forks sc) = Some <$> pids ->
  NoDup pids -> NoDup (ended sc).*1 ->
  (forall pid, pid ∈ pids -> pid ∈ (ended sc).*1) ->
  exists statuses' children t' exits,
    run_procs procs statuses sc t = Ran statuses' children t' /\
    children.*1 = pids /\
    reported statuses' = Some exits /\
    length exits = length procs /\
    statuses' !! length procs = Some (-1)%Z /\
    (forall i pid status, pids !! i = Some pid -> (pid, status) ∈ ended sc ->
       exits !! i = Some (WEXITSTATUS status)) /\
    (forall ended', ended' ≡ₚ ended sc ->
       run_procs procs statuses (Schedule (forks sc) ended') t
       = Ran statuses' children t').
Proof.
  intros Hcap Hmax Hlen Hforks Hnodup Hended Hall.
  destruct (run_procs_array procs statuses sc t pids)
    as (statuses' & children & t' & Hspawn & Hchildren & Hrun & Hlen' & Hkeep
        & Hend & Hset); try done.
  assert (Hstatus : forall j, j < length procs ->
            exists pid status, pids !! j = Some pid /\ (pid, status) ∈ ended sc).
  { intros j Hj. destruct (lookup_lt_is_Some_2 pids j ltac:(lia)) as [pid Hpid].
    pose proof (Hall pid (list_elem_of_lookup_2 _ _ _ Hpid)) as Hin.
    apply list_elem_of_fmap in Hin as [[q s] [-> Hin]]. by exists q, s. }
  exists statuses', children, t', (take (length procs) statuses').
  split_and!; try done.
  - apply reported_prefix; [|done]. intros j Hj.
    destruct (Hstatus j Hj) as (pid & status & Hpid & Hin).
    exists (WEXITSTATUS status). split; [by eapply Hset|].
    pose proof (WEXITSTATUS_nonneg status). lia.
  - rewrite length_take. lia.
  - intros i pid status Hpid Hin. apply lookup_lt_Some in Hpid as Hlt.
    rewrite lookup_take_lt by lia. by eapply Hset.
  - intros ended' Hperm.
    destruct (run_procs_array procs statuses (Schedule (forks sc) ended') t pids)
      as (statuses2 & children2 & t2 & Hspawn2 & _ & Hrun2 & Hlen2 & Hkeep2
          & Hend2 & Hset2); try done; simpl.
    + by rewrite Hperm.
    + intros pid Hpid. rewrite Hperm. by apply Hall.
    + simpl in Hspawn2. rewrite Hspawn in Hspawn2.
      injection Hspawn2 as <- <-. rewrite Hrun2. f_equal.
      apply list_eq. intros j.
      destruct (Nat.lt_trichotomy j (length procs)) as [Hj|[->|Hj]].
      * destruct (Hstatus j Hj) as (pid & status & Hpid & Hin).
        rewrite (Hset j pid status) by done.
        apply (Hset2 j pid status); [done|]. simpl. by rewrite Hperm.
      * by rewrite Hend, Hend2.
      * by rewrite Hkeep, Hkeep2.
Qed.

Lemma run_procs_statuses_witness :
  exists statuses' children t',
    run_procs [Process ["echo"; "hello"] 0 4 2; Process ["wc"; "-w"] 3 1 2]
              (replicate 8 7%Z)
              (Schedule [Some 100%positive; Some 101%positive]
                        [(101%positive, 0%Z); (100%positive, 256%Z)])
              (fdt (fresh_world 16))
    = Ran statuses' children t' /\
    reported statuses' = Some [1%Z; 0%Z].
Proof.
  destruct (run_procs_statuses
              [Process ["echo"; "hello"] 0 4 2; Process ["wc"; "-w"] 3 1 2]
              (replicate 8 7%Z)
              (Schedule [Some 100%positive; Some 101%positive]
                        [(101%positive, 0%Z); (100%positive, 256%Z)])
              (fdt (fresh_world 16)) [100%positive; 101%positive])
    as (statuses' & children & t' & exits & Hrun & _ & Hrep & _ & _ & _ & _).
  - simpl. lia.
  - vm_compute. lia.
  - reflexivity.
  - reflexivity.
  - apply NoDup_ListNoDup. repeat constructor; simpl; intuition congruence.
  - apply NoDup_ListNoDup. repeat constructor; simpl; intuition congruence.
  - intros pid Hpid. apply list_elem_of_In in Hpid. apply list_elem_of_In.
    simpl in *. intuition.
  - exists statuses', children, t'. split; [exact Hrun|].
    vm_compute in Hrun. injection Hrun as <- _ _. reflexivity.
Defined.

(** ** Builtin commands *)

(** C3 on the code.  [run_procs] stores the sentinel at [statuses[N]],
    one slot after the N statuses, and [main] gives it an array of
    [PROCESS_MAX] slots: when the pipeline has as many stages as the array
    has slots, all of them forked, the sentinel is stored outside the
    array, before any child is waited for. *)
Theorem sentinel_overrun (procs : list process) (statuses : list Z)
    (sc : schedule) (t : gmap nat ofile) (pids : list positive) :
  length statuses <= length procs ->
  length procs <= PROCESS_MAX ->
  length pids = length procs ->
  take (length procs) (forks sc) = Some <$> pids ->
  run_procs procs statuses sc t = RunUndefined.
Proof.
  intros Hcap Hmax Hlen Hforks. unfold run_procs.
  rewrite <- (take_drop (length procs) (forks sc)), Hforks.
  destruct (spawn_all procs pids (drop (length procs) (forks sc)) t 0 Hlen
              ltac:(lia)) as (children & t' & -> & _).
  unfold store. by rewrite (proj2 (Nat.ltb_ge _ _)) by lia.
Qed.

Lemma sentinel_overrun_witness :
  run_procs
    [Process ["a"] 0 4 2; Process ["b"] 3 6 2; Process ["c"] 5 8 2;
     Process ["d"] 7 10 2; Process ["e"] 9 12 2; Process ["f"] 11 14 2;
     Process ["g"] 13 16 2; Process ["h"] 15 1 2]
    (replicate PROCESS_MAX 0%Z)
    (Schedule (Some <$> [1; 2; 3; 4; 5; 6; 7; 8]%positive)
              [(8%positive, 0%Z); (1%positive, 0%Z)])
    (fdt (fresh_world 64))
  = RunUndefined.
Proof.
  apply (sentinel_overrun _ _ _ _ [1; 2; 3; 4; 5; 6; 7; 8]%positive).
  - vm_compute. lia.
  - vm_compute. lia.
  - reflexivity.
  - reflexivity.
Defined.

(** ** The builtins *)

(** C9 on the code.  No turn of [main] gets to the comparison of the
    first argument with the names of the builtins, nor to [run_procs]:
    [parse_command] returns only through its error paths, and a line that
    passes its tests ends in the call of [free] on the automatic array
    [tokens].  On the line "pwd" the single stage is built, and the
    comparison in [main] would select the builtin for it, but the
    behaviour of the turn is undefined before that. *)
Theorem builtin_never_dispatched :
  (forall cmdline statuses sc w b w',
     main_turn cmdline statuses sc w <> DidBuiltin b w') /\
  (forall cmdline statuses sc w r,
     main_turn cmdline statuses sc w <> DidRun r) /\
  parse_command "pwd" (fresh_world 16)
  = InvalidFree [Process ["pwd"] 0 1 2] (fresh_world 16) /\
  dispatch_of [Process ["pwd"] 0 1 2] = Some (RunBuiltin BuiltinPwd) /\
  forall statuses sc,
    main_turn "pwd" statuses sc (fresh_world 16) = TurnUndefined.
Proof.
  assert (Hnever : forall cmdline statuses sc w,
            match main_turn cmdline statuses sc w with
            | DidBuiltin _ _ | DidRun _ => False
            | _ => True
            end).
  { intros cmdline statuses sc w. unfold main_turn.
    pose proof (parse_command_no_return cmdline w) as Hno.
    destruct (parse_command cmdline w) as [procs w'| | | |]; try done.
    by destruct (Hno procs w'). }
  split_and!.
  - intros cmdline statuses sc w b w' Heq.
    specialize (Hnever cmdline statuses sc w). by rewrite Heq in Hnever.
  - intros cmdline statuses sc w r Heq.
    specialize (Hnever cmdline statuses sc w). by rewrite Heq in Hnever.
  - vm_compute. reflexivity.
  - reflexivity.
  - intros statuses sc. reflexivity.
Qed.

(** * Further properties of the code *)

(** ** The shape of the tokens *)

Lemma is_op_char_inv c : is_op_char c = true -> c = "|"%char \/ c = ">"%char.
Proof.
  unfold is_op_char. intros [H|H]%orb_prop; apply Ascii.eqb_eq in H; auto.
Qed.

Lemma copy_arg_chars s buf rest :
  copy_arg s = (buf, rest) -> all_chars is_arg_char buf = true.
Proof.
  revert buf rest. induction s as [|c s IH]; simpl; intros buf rest.
  - by intros [= <- <-].
  - destruct (is_arg_char c) eqn:Hc; [|by intros [= <- <-]].
    destruct (copy_arg s) as [b r]. intros [= <- <-]. simpl.
    by rewrite Hc, (IH b r).
Qed.

Lemma read_next_token_shape s buf rest :
  read_next_token s = Token buf rest ->
  (is_operator_token buf = true /\ is_arg (Some buf) = false) \/
  (is_word buf = true /\ is_arg (Some buf) = true).
Proof.
  unfold read_next_token. pose proof (skip_blanks_head s) as Hhead.
  destruct (skip_blanks s) as [|c r]; [done|]. specialize (Hhead c r eq_refl).
  destruct (Ascii.eqb c NUL) eqn:Hnul; [done|].
  destruct (is_op_char c) eqn:Hop.
  - intros Htok. left. apply is_op_char_inv in Hop.
    assert (buf = String c "&" \/ buf = String c "") as Hbuf.
    { destruct r as [|c' r']; [right; by injection Htok|].
      destruct (Ascii.eqb_spec c' "&") as [->|Hc']; [left; by injection Htok|].
      right. destruct c' as [[] [] [] [] [] [] [] []]; by inversion Htok. }
    destruct Hop as [-> | ->], Hbuf as [-> | ->]; done.
  - pose proof (copy_arg_chars r) as Hchars.
    destruct (copy_arg r) as [b r']. specialize (Hchars _ _ eq_refl).
    destruct (fits_buffer (String c b)) eqn:Hfit; [|done].
    intros [= <- <-]. right. split.
    + unfold is_word. rewrite Hfit, andb_true_r. simpl.
      unfold is_arg_char at 1. by rewrite Hnul, Hhead, Hop, Hchars.
    + unfold is_arg, is_op_char in *. simpl.
      apply orb_false_elim in Hop as [-> ->]. done.
Qed.

Lemma read_tokens_from_shape fuel : forall s n toks,
  read_tokens_from fuel s n = Tokens toks ->
  Forall (fun t =>
            (is_operator_token t = true /\ is_arg (Some t) = false) \/
            (is_word t = true /\ is_arg (Some t) = true)) toks /\
  length toks <= String.length s /\
  n + length toks < CMDLINE_MAX.
Proof.
  induction fuel as [|fuel IH]; intros s n toks;
    rewrite read_tokens_from_unfold;
    destruct (read_next_token s) as [|buf rest|] eqn:Hnext; try done;
    (destruct (Nat.ltb_spec n CMDLINE_MAX); [|done]);
    try (intros [= <-]; split; [constructor|simpl; lia]); try done.
  destruct (read_tokens_from fuel rest (S n)) as [toks'|] eqn:Hrec; [|done].
  intros [= <-]. destruct (IH _ _ _ Hrec) as (Hshape & Hlen & Hcap).
  apply read_next_token_shorter in Hnext as Hshort.
  split; [|simpl; lia]. constructor; [|done].
  by eapply read_next_token_shape.
Qed.

(** X1. Every token that [read_tokens] stores is one of the four operator
    tokens, and then no argument, or a non-empty run of argument characters
    shorter than the token buffer, and then an argument; a line has no more
    tokens than characters, and fewer than the slots of the array. *)
Theorem read_tokens_shape (cmdline : string) (toks : list string) :
  read_tokens cmdline = Tokens toks ->
  Forall (fun t =>
            (is_operator_token t = true /\ is_arg (Some t) = false) \/
            (is_word t = true /\ is_arg (Some t) = true)) toks /\
  length toks <= String.length cmdline /\
  length toks < CMDLINE_MAX.
Proof. intros Htoks. by apply read_tokens_from_shape in Htoks. Qed.

Lemma read_tokens_shape_witness :
  Forall (fun t =>
            (is_operator_token t = true /\ is_arg (Some t) = false) \/
            (is_word t = true /\ is_arg (Some t) = true))
         ["ls"; "-l"; "|&"; "wc"; ">&"; "out"].
Proof.
  apply (read_tokens_shape "ls -l|&  wc>& out"
           ["ls"; "-l"; "|&"; "wc"; ">&"; "out"] eq_refl).
Defined.

(** ** Tokens and the token buffer *)

Lemma string_length_app (s1 s2 : string) :
  String.length (s1 ++ s2) = String.length s1 + String.length s2.
Proof. induction s1 as [|c s1 IH]; simpl; [done|]. by rewrite IH. Qed.

Lemma skip_blanks_app lead s :
  all_chars is_blank lead = true ->
  skip_blanks (lead ++ s)%string = skip_blanks s.
Proof.
  induction lead as [|c lead IH]; simpl; [done|].
  intros [-> Hlead]%andb_prop. auto.
Qed.

Lemma copy_arg_app word s :
  all_chars is_arg_char word = true ->
  copy_arg (word ++ s)%string
  = ((word ++ (copy_arg s).1)%string, (copy_arg s).2).
Proof.
  induction word as [|c word IH].
  - intros _. change (copy_arg s = ((copy_arg s).1, (copy_arg s).2)).
    by destruct (copy_arg s).
  - intros [Hc Hword]%andb_prop.
    change (copy_arg (String c (word ++ s)%string)
            = (String c (word ++ (copy_arg s).1)%string, (copy_arg s).2)).
    simpl. by rewrite Hc, (IH Hword).
Qed.

Lemma is_arg_char_inv c :
  is_arg_char c = true ->
  Ascii.eqb c NUL = false /\ is_blank c = false /\ is_op_char c = false.
Proof.
  unfold is_arg_char.
  by intros [[?%negb_true_iff ?%negb_true_iff]%andb_prop ?%negb_true_iff]%andb_prop.
Qed.

(** X2. A run of [TOKEN_MAX] or more argument characters at the start of
    the line, after any blanks, is copied past the end of [token_buf],
    whatever follows it: [read_tokens], and [parse_command] with it, have
    no defined result. *)
Theorem long_word_overrun (lead word tail : string) (w : world) :
  all_chars is_blank lead = true ->
  all_chars is_arg_char word = true ->
  TOKEN_MAX <= String.length word ->
  read_tokens (lead ++ word ++ tail) = LexUndefined /\
  parse_command (lead ++ word ++ tail) w = Undefined.
Proof.
  intros Hlead Hword Hlen.
  assert (Hnext : read_next_token (lead ++ word ++ tail) = Overrun).
  { unfold read_next_token. rewrite skip_blanks_app by done.
    destruct word as [|c word]; [simpl in Hlen; unfold TOKEN_MAX in Hlen; lia|].
    simpl in Hword. apply andb_prop in Hword as [Hc Hword].
    apply is_arg_char_inv in Hc as (Hnul & Hblank & Hop).
    simpl. rewrite Hblank, Hnul, Hop, (copy_arg_app _ _ Hword).
    destruct (copy_arg tail) as [b r]. simpl.
    unfold fits_buffer. simpl. rewrite string_length_app.
    simpl in Hlen.
    by rewrite (proj2 (Nat.ltb_ge _ TOKEN_MAX)) by lia. }
  assert (Htoks : read_tokens (lead ++ word ++ tail) = LexUndefined).
  { unfold read_tokens. by rewrite read_tokens_from_unfold, Hnext. }
  split; [done|]. unfold parse_command. by rewrite Htoks.
Qed.

Lemma long_word_overrun_witness :
  parse_command " abcdefghijklmnopqrstuvwxyz0123456789 | wc" (fresh_world 16)
  = Undefined.
Proof.
  apply (long_word_overrun " " "abcdefghijklmnopqrstuvwxyz0123456789" " | wc"
           (fresh_world 16)); [reflexivity|reflexivity|vm_compute; lia].
Defined.

Lemma runs_fit_mono s : forall k k',
  k <= k' -> runs_fit s k' = true -> runs_fit s k = true.
Proof.
  induction s as [|c s IH]; intros k k' Hle; simpl; [done|].
  destruct (is_arg_char c); [|done].
  intros [Hk Hs]%andb_prop. apply Nat.ltb_lt in Hk.
  rewrite (proj2 (Nat.ltb_lt (S k) TOKEN_MAX)) by lia.
  apply (IH (S k) (S k')); [lia|done].
Qed.

Lemma runs_fit_skip_blanks s : forall k,
  runs_fit s k = true -> runs_fit (skip_blanks s) 0 = true.
Proof.
  induction s as [|c s IH]; intros k; simpl; [done|].
  destruct (is_blank c) eqn:Hb.
  - unfold is_arg_char. rewrite Hb, andb_false_r. simpl. apply IH.
  - intros Hfit. apply (runs_fit_mono _ 0 k); [lia|done].
Qed.

Lemma runs_fit_copy_arg s : forall k buf rest,
  copy_arg s = (buf, rest) -> k < TOKEN_MAX -> runs_fit s k = true ->
  k + String.length buf < TOKEN_MAX /\ runs_fit rest 0 = true.
Proof.
  induction s as [|c s IH]; intros k buf rest; simpl.
  - intros [= <- <-]. simpl. split; [lia|done].
  - destruct (is_arg_char c) eqn:Hc.
    + destruct (copy_arg s) as [b r] eqn:Hcopy. intros [= <- <-] Hk.
      intros [Hk' Hs]%andb_prop. apply Nat.ltb_lt in Hk'.
      destruct (IH (S k) b r eq_refl Hk' Hs) as [Hlen Hrest].
      simpl. split; [lia|done].
    + intros [= <- <-] Hk Hs. simpl. rewrite Hc. split; [lia|done].
Qed.

Lemma read_tokens_from_defined fuel : forall s n,
  String.length s <= fuel ->
  n + String.length s < CMDLINE_MAX ->
  runs_fit s 0 = true ->
  exists toks, read_tokens_from fuel s n = Tokens toks.
Proof.
  induction fuel as [|fuel IH]; intros s n Hfuel Hcap Hfit;
    rewrite read_tokens_from_unfold;
    pose proof (runs_fit_skip_blanks s 0 Hfit) as Hfit';
    pose proof (skip_blanks_length s) as Hskip;
    pose proof (skip_blanks_head s) as Hhead;
    unfold read_next_token;
    (destruct (skip_blanks s) as [|c r];
       [rewrite (proj2 (Nat.ltb_lt n CMDLINE_MAX)) by lia; by eexists|]);
    [simpl in Hskip; lia|].
  specialize (Hhead c r eq_refl). simpl in Hskip, Hfit'.
  destruct (Ascii.eqb c NUL) eqn:Hnul;
    [rewrite (proj2 (Nat.ltb_lt n CMDLINE_MAX)) by lia; by eexists|].
  assert (Hgo : forall buf rest,
            String.length rest <= String.length r ->
            runs_fit rest 0 = true ->
            exists toks,
              (if (n <? CMDLINE_MAX)%nat
               then lexed_cons buf (read_tokens_from fuel rest (S n))
               else LexUndefined) = Tokens toks).
  { intros buf rest Hlen Hrest.
    rewrite (proj2 (Nat.ltb_lt n CMDLINE_MAX)) by lia.
    destruct (IH rest (S n)) as [toks ->]; [lia|lia|done|]. by eexists. }
  unfold is_arg_char in Hfit'. rewrite Hnul, Hhead in Hfit'. simpl in Hfit'.
  destruct (is_op_char c) eqn:Hop; simpl in Hfit'.
  - destruct r as [|c' r']; [by apply Hgo|].
    destruct (Ascii.eqb_spec c' "&") as [->|Hc'].
    + apply Hgo; [simpl; lia|]. simpl in Hfit'.
      apply (runs_fit_mono _ 0 1); [lia|done].
    + destruct c' as [[] [] [] [] [] [] [] []]; try by apply Hgo.
  - pose proof (runs_fit_copy_arg r 1) as Hcopy.
    destruct (copy_arg r) as [buf rest] eqn:Hcopy'.
    destruct (Hcopy buf rest eq_refl ltac:(vm_compute; lia) Hfit') as [Hlen Hrest].
    unfold fits_buffer. simpl.
    rewrite (proj2 (Nat.ltb_lt (S (String.length buf)) TOKEN_MAX)) by lia.
    apply Hgo; [by eapply copy_arg_length|done].
Qed.

(** X3. A line shorter than [CMDLINE_MAX] in which every run of argument
    characters is shorter than [TOKEN_MAX] is tokenized within the bounds
    of [token_buf] and of the [tokens] array. *)
Theorem read_tokens_defined (cmdline : string) :
  String.length cmdline < CMDLINE_MAX ->
  runs_fit cmdline 0 = true ->
  exists toks, read_tokens cmdline = Tokens toks.
Proof.
  intros Hlen Hfit. apply read_tokens_from_defined; [done|lia|done].
Qed.

Lemma read_tokens_defined_witness :
  exists toks, read_tokens "cat < f |& grep -v x >& out" = Tokens toks.
Proof.
  apply read_tokens_defined; [vm_compute; lia|reflexivity].
Defined.

(** ** Writing the tokens back *)

Lemma copy_arg_stop word c s :
  all_chars is_arg_char word = true -> is_arg_char c = false ->
  copy_arg (word ++ String c s)%string = (word, String c s).
Proof.
  intros Hword Hc. rewrite (copy_arg_app _ _ Hword). simpl. rewrite Hc. simpl.
  f_equal. induction word as [|c' word IH]; [done|].
  apply andb_prop in Hword as [_ Hword].
  change (String c' (word ++ "")%string = String c' word). by rewrite IH.
Qed.

Lemma is_operator_token_inv t :
  is_operator_token t = true -> t = "|" \/ t = "|&" \/ t = ">" \/ t = ">&".
Proof.
  unfold is_operator_token. rewrite !orb_true_iff, !String.eqb_eq. tauto.
Qed.

Lemma read_next_token_join t s :
  is_operator_token t = true \/ is_word t = true ->
  read_next_token (t ++ String " " s)%string = Token t (String " " s).
Proof.
  intros [Hop|Hword].
  - by destruct (is_operator_token_inv t Hop) as [->|[->|[->| ->]]].
  - unfold is_word in Hword. destruct t as [|c t]; [done|].
    apply andb_prop in Hword as [Hchars Hfit]. simpl in Hchars.
    apply andb_prop in Hchars as [Hc Hchars].
    apply is_arg_char_inv in Hc as (Hnul & Hblank & Hop).
    change (read_next_token (String c (t ++ String " " s)%string)
            = Token (String c t) (String " " s)).
    unfold read_next_token. simpl. rewrite Hblank, Hnul, Hop.
    rewrite (copy_arg_stop t " " s Hchars eq_refl). by rewrite Hfit.
Qed.

Lemma read_tokens_from_blank fuel s n :
  read_tokens_from fuel (String " " s) n = read_tokens_from fuel s n.
Proof. by rewrite !read_tokens_from_unfold. Qed.

Lemma read_tokens_from_join toks : forall fuel n,
  Forall (fun t => is_operator_token t = true \/ is_word t = true) toks ->
  n + length toks < CMDLINE_MAX ->
  String.length (join_tokens toks) <= fuel ->
  read_tokens_from fuel (join_tokens toks) n = Tokens toks.
Proof.
  induction toks as [|t toks IH]; intros fuel n Hshape Hcap Hfuel;
    rewrite read_tokens_from_unfold.
  - simpl. by rewrite (proj2 (Nat.ltb_lt n CMDLINE_MAX)) by lia.
  - apply Forall_cons in Hshape as [Ht Hshape]. simpl in Hcap, Hfuel.
    rewrite string_length_app in Hfuel. simpl in Hfuel.
    simpl join_tokens. rewrite (read_next_token_join _ _ Ht).
    rewrite (proj2 (Nat.ltb_lt n CMDLINE_MAX)) by lia.
    destruct fuel as [|fuel]; [lia|].
    rewrite read_tokens_from_blank, IH; [done|done|lia|lia].
Qed.

(** X4. Round trip of the tokenizer: the tokens of a line, written back
    each followed by one space, are tokenized into the same tokens. *)
Theorem read_tokens_join (cmdline : string) (toks : list string) :
  read_tokens cmdline = Tokens toks ->
  read_tokens (join_tokens toks) = Tokens toks.
Proof.
  intros (Hshape & _ & Hcap)%read_tokens_from_shape.
  apply read_tokens_from_join; [|lia|done].
  eapply Forall_impl; [exact Hshape|]. intros t [[? _]|[? _]]; auto.
Qed.

Lemma read_tokens_join_witness :
  read_tokens "ls | wc >& out " = Tokens ["ls"; "|"; "wc"; ">&"; "out"].
Proof.
  apply (read_tokens_join "  ls|wc>&	out" ["ls"; "|"; "wc"; ">&"; "out"]).
  reflexivity.
Defined.

(** ** The bound of [read_argv] *)

Lemma read_argv_from_too_many args : forall rest i,
  Forall (fun a => is_arg (Some a) = true) args ->
  i <= ARG_MAX -> ARG_MAX < i + length args ->
  read_argv_from (args ++ rest) i = None.
Proof.
  induction args as [|a args IH]; intros rest i Hargs Hi Hlen.
  - simpl in Hlen. lia.
  - apply Forall_cons in Hargs as [Ha Hargs]. simpl in *. rewrite Ha.
    destruct (Nat.eqb_spec i ARG_MAX); [done|].
    rewrite IH; [done|done|lia|lia].
Qed.

Lemma read_argv_from_length toks : forall i args rest,
  read_argv_from toks i = Some (args, rest) ->
  i <= ARG_MAX -> i + length args <= ARG_MAX.
Proof.
  induction toks as [|t toks IH]; intros i args rest; simpl.
  - intros [= <- <-]. simpl. lia.
  - destruct (is_arg (Some t)); [|intros [= <- <-]; simpl; lia].
    destruct (Nat.eqb_spec i ARG_MAX); [done|].
    destruct (read_argv_from toks (S i)) as [[args' rest']|] eqn:Hrec; [|done].
    intros [= <- <-] Hi. specialize (IH _ _ _ Hrec). simpl. lia.
Qed.

Lemma read_argv_length toks args rest :
  read_argv toks = Argv args rest -> 1 <= length args <= ARG_MAX.
Proof.
  unfold read_argv.
  destruct (read_argv_from toks 0) as [[args' rest']|] eqn:Hfrom; [|done].
  apply read_argv_from_length in Hfrom; [|lia].
  destruct args' as [|a args']; [done|]. intros [= <- <-]. simpl in *. lia.
Qed.

(** X5. When the line starts with more than [ARG_MAX] argument tokens,
    [parse_command] fails with [TooManyArguments], whatever follows them,
    and leaves the world as it was. *)
Theorem too_many_arguments (cmdline : string) (w : world)
    (args rest : list string) :
  read_tokens cmdline = Tokens (args ++ rest) ->
  Forall (fun a => is_arg (Some a) = true) args ->
  ARG_MAX < length args ->
  parse_command cmdline w = Fail TooManyArguments w.
Proof.
  intros Htoks Hargs Hlen. unfold parse_command, parse_tokens. rewrite Htoks.
  destruct (args ++ rest) as [|t toks] eqn:Heq.
  { apply (f_equal length) in Heq. rewrite length_app in Heq. simpl in Heq. lia. }
  rewrite <- Heq. rewrite parse_stages_unfold. unfold read_argv.
  by rewrite read_argv_from_too_many by (done || lia).
Qed.

Lemma too_many_arguments_witness :
  parse_command "echo 1 2 3 4 5 6 7 8 9 10 11 12 13 14 15 16 | wc"
                (fresh_world 16)
  = Fail TooManyArguments (fresh_world 16).
Proof.
  apply (too_many_arguments _ _
           ["echo"; "1"; "2"; "3"; "4"; "5"; "6"; "7"; "8"; "9"; "10"; "11";
            "12"; "13"; "14"; "15"; "16"] ["|"; "wc"]).
  - reflexivity.
  - repeat constructor.
  - vm_compute. lia.
Defined.

(** ** The stages of an accepted line *)

Lemma weave_cons args argvs op ops :
  argvs <> [] -> weave (args :: argvs) (op :: ops) = args ++ op :: weave argvs ops.
Proof. by destruct argvs. Qed.

Lemma weave_one args ops : weave [args] ops = args.
Proof. done. Qed.

Lemma parse_stages_tokens fuel : forall toks cin dn w p w',
  parse_stages fuel toks cin dn w = Ok p w' ->
  exists new,
    completed p = dn ++ new /\
    toks = weave ((argv <$> new) ++ [cur_argv p]) (pipe_ops toks) ++ tok_iter p /\
    Forall (fun q => 1 <= length (argv q) <= ARG_MAX /\
                     Forall (fun a => is_arg (Some a) = true) (argv q)) new /\
    1 <= length (cur_argv p) <= ARG_MAX /\
    Forall (fun a => is_arg (Some a) = true) (cur_argv p).
Proof.
  assert (Hbreak : forall toks cin dn w args rest p w',
    read_argv toks = Argv args rest ->
    Ok (Pending dn args cin rest) w = Ok p w' ->
    exists new,
      completed p = dn ++ new /\
      toks = weave ((argv <$> new) ++ [cur_argv p]) (pipe_ops toks) ++ tok_iter p /\
      Forall (fun q => 1 <= length (argv q) <= ARG_MAX /\
                       Forall (fun a => is_arg (Some a) = true) (argv q)) new /\
      1 <= length (cur_argv p) <= ARG_MAX /\
      Forall (fun a => is_arg (Some a) = true) (cur_argv p)).
  { intros toks cin dn w args rest p w' Hargv [= <- <-].
    pose proof (read_argv_length _ _ _ Hargv) as Hlen.
    apply read_argv_inv in Hargv as (_ & -> & Hargs & _).
    exists []. simpl. rewrite app_nil_r. repeat split; done || lia. }
  induction fuel as [|fuel IH]; intros toks cin dn w p w';
    rewrite parse_stages_unfold;
    (destruct (read_argv toks) as [args rest|e] eqn:Hargv; [|done]);
    (destruct rest as [|op rest]; [by eapply Hbreak|]);
    (destruct (is_pipe_token (Some op)) eqn:Hpipe; [|by eapply Hbreak]);
    (destruct (S (length _) <? PROCESS_MAX)%nat; [|done]);
    (destruct (pipe_procs _ _) as [[[[out err] next_in] w1]|]; [|done]);
    [done|].
  intros Hrec.
  destruct (IH _ _ _ _ _ _ Hrec) as (new & Hdone & Htoks & Hnew & Hlen & Hcur).
  pose proof (read_argv_length _ _ _ Hargv) as Hlen'.
  apply read_argv_inv in Hargv as (_ & -> & Hargs & _).
  exists (Process args cin out err :: new).
  split; [by rewrite Hdone, <- app_assoc|].
  split; [|split; [|done]].
  - unfold pipe_ops at 1. rewrite filter_pipe_args by done.
    cbn [List.filter]. rewrite Hpipe, fmap_cons. cbn [argv app].
    rewrite weave_cons by (by destruct (argv <$> new)).
    rewrite <- !app_assoc. simpl. do 2 f_equal. exact Htoks.
  - by constructor.
Qed.

Lemma parse_tokens_stages toks w procs w' :
  parse_tokens toks w = Ok procs w' ->
  Forall (fun q => 1 <= length (argv q) <= ARG_MAX /\
                   Forall (fun a => is_arg (Some a) = true) (argv q)) procs /\
  exists tail,
    toks = weave (argv <$> procs) (pipe_ops toks) ++ tail /\
    (tail = [] \/
     exists op path after,
       tail = op :: path :: after /\
       is_out_redirect_token (Some op) = true /\
       is_pipe_token (head after) = false).
Proof.
  intros Hparse.
  unfold parse_tokens in Hparse. destruct toks as [|t toks]; [done|].
  destruct (parse_stages _ _ _ _ _) as [p w1| | | |] eqn:Hstages; try done.
  apply parse_stages_rest in Hstages as Hrest.
  destruct Hrest as (_ & Harg & Hpipe).
  apply parse_stages_tokens in Hstages as (new & Hdone & Hweave & Hnew & Hlen & Hcur).
  simpl in Hdone.
  assert (Hend : forall out err,
            Forall (fun q => 1 <= length (argv q) <= ARG_MAX /\
                             Forall (fun a => is_arg (Some a) = true) (argv q))
                   (completed p ++ [Process (cur_argv p) (cur_in p) out err]) /\
            argv <$> (completed p ++ [Process (cur_argv p) (cur_in p) out err])
            = (argv <$> new) ++ [cur_argv p]).
  { intros out err. rewrite Hdone. split; [|by rewrite fmap_app].
    apply Forall_app. split; [done|]. apply Forall_singleton. by split. }
  unfold parse_redirect in Hparse.
  destruct (is_out_redirect_token (head (tok_iter p))) eqn:Hop.
  - destruct (tok_iter p) as [|op [|path after]] eqn:Htail; try done.
    destruct (redirect_proc_out _ _ _) as [[[out err] w2]|]; [|done].
    destruct (is_pipe_token (head after)) eqn:Hafter; [done|].
    apply terminate_procs_inv in Hparse as (-> & _ & _).
    destruct (Hend out err) as [Hall ->]. split; [done|].
    exists (op :: path :: after). split; [done|]. right. by exists op, path, after.
  - apply terminate_procs_inv in Hparse as (-> & _ & _).
    destruct (Hend STDOUT_FILENO STDERR_FILENO) as [Hall ->]. split; [done|].
    exists (tok_iter p). split; [done|]. left.
    destruct (tok_iter p) as [|op rest]; [done|].
    simpl in *. pose proof (neither_arg_nor_pipe op Harg Hpipe). congruence.
Qed.

(** X6. The stages that [parse_command] has stored when a line has passed
    all its tests and the function calls [free]: there are between 1 and
    [PROCESS_MAX - 1] of them, each has between 1 and [ARG_MAX] arguments
    and all of them are argument tokens, and the line is made of the
    argument lists of the stages with its first pipe operators between
    them, followed by nothing or by a redirect operator, a token taken as
    the path, and tokens that do not start with a pipe operator. *)
Theorem parse_command_stages (cmdline : string) (toks : list string)
    (w w' : world) (procs : list process) :
  read_tokens cmdline = Tokens toks ->
  parse_command cmdline w = InvalidFree procs w' ->
  0 < length procs < PROCESS_MAX /\
  Forall (fun q => 1 <= length (argv q) <= ARG_MAX /\
                   Forall (fun a => is_arg (Some a) = true) (argv q)) procs /\
  exists tail,
    toks = weave (argv <$> procs) (pipe_ops toks) ++ tail /\
    (tail = [] \/
     exists op path after,
       tail = op :: path :: after /\
       is_out_redirect_token (Some op) = true /\
       is_pipe_token (head after) = false).
Proof.
  intros Htoks Hparse. apply (parse_command_built _ _ _ _ _ Htoks) in Hparse.
  split; [by eapply parse_tokens_length|]. by eapply parse_tokens_stages.
Qed.

Lemma parse_command_stages_witness :
  exists tail,
    ["ls"; "-l"; "|&"; "wc"; ">&"; "out"]
    = weave [["ls"; "-l"]; ["wc"]] ["|&"] ++ tail.
Proof.
  pose (w' := World (<[5 := OutFile "out"]> (<[4 := PipeWrite 0]>
                       (<[3 := PipeRead 0]> (fdt (fresh_world 16)))))
                    16 {["out" := EmptyString]} ∅ 1).
  assert (Hparse : parse_command "ls -l|&  wc>& out" (fresh_world 16)
                   = InvalidFree
                       [Process ["ls"; "-l"] 0 4 4; Process ["wc"] 3 5 5] w')
    by (vm_compute; reflexivity).
  destruct (parse_command_stages "ls -l|&  wc>& out"
              ["ls"; "-l"; "|&"; "wc"; ">&"; "out"] _ _ _ eq_refl Hparse)
    as (_ & _ & tail & Htail & _).
  exists tail. exact Htail.
Defined.

(** ** What the parse does to the world *)

Lemma sys_pipe_grows w rd wr w' :
  sys_pipe w = Some (rd, wr, w') ->
  fdt w ⊆ fdt w' /\ files w' = files w /\ denied w' = denied w /\
  fd_limit w' = fd_limit w /\ npipes w' = S (npipes w).
Proof.
  intros (Hrd & Hwr & Hne & ->)%sys_pipe_inv. simpl. split; [|done].
  transitivity (<[rd := PipeRead (npipes w)]> (fdt w)).
  - by apply insert_subseteq.
  - apply insert_subseteq. by rewrite lookup_insert_ne.
Qed.

Lemma parse_stages_grows fuel : forall toks cin dn w w',
  outcome_world (parse_stages fuel toks cin dn w) = Some w' ->
  fdt w ⊆ fdt w' /\ files w' = files w /\ denied w' = denied w /\
  fd_limit w' = fd_limit w /\ npipes w <= npipes w'.
Proof.
  induction fuel as [|fuel IH]; intros toks cin dn w w';
    rewrite parse_stages_unfold;
    (destruct (read_argv toks) as [args rest|e]; [|by intros [= <-]]);
    (destruct rest as [|op rest]; [by intros [= <-]|]);
    (destruct (is_pipe_token (Some op)); [|by intros [= <-]]);
    (destruct (S (length _) <? PROCESS_MAX)%nat; [|done]);
    (destruct (pipe_procs _ _) as [[[[out err] next_in] w1]|] eqn:Hpipe;
       [|done]);
    [done|].
  apply pipe_procs_inv in Hpipe as [Hpipe _].
  apply sys_pipe_grows in Hpipe as (Hsub & <- & <- & <- & Hn).
  intros Hrec. destruct (IH _ _ _ _ _ Hrec) as (Hsub' & -> & -> & -> & Hn').
  split_and!; try done; [by transitivity (fdt w1)|lia].
Qed.

Lemma pipes_open_weaken from w1 w2 :
  fdt w1 ⊆ fdt w2 -> npipes w2 = npipes w1 ->
  pipes_open from w1 -> pipes_open from w2.
Proof.
  intros Hsub Hn Hopen k Hk. rewrite Hn in Hk.
  destruct (Hopen k Hk) as (rd & wr & Hrd & Hwr).
  exists rd, wr. split; by eapply lookup_weaken.
Qed.

Lemma sys_pipe_pipes_open from w rd wr w' :
  sys_pipe w = Some (rd, wr, w') -> pipes_open from w -> pipes_open from w'.
Proof.
  intros Hpipe Hopen k Hk.
  pose proof (sys_pipe_grows _ _ _ _ Hpipe) as (Hsub & _ & _ & _ & Hn).
  apply sys_pipe_inv in Hpipe as (Hrd & Hwr & Hne & Hw').
  destruct (decide (k = npipes w)) as [->|Hlt].
  - exists rd, wr. rewrite Hw'. simpl. split.
    + by rewrite lookup_insert_ne, lookup_insert_eq.
    + by rewrite lookup_insert_eq.
  - destruct (Hopen k ltac:(lia)) as (rd0 & wr0 & Hrd0 & Hwr0).
    exists rd0, wr0. split; by eapply lookup_weaken.
Qed.

Lemma parse_stages_pipes from fuel : forall toks cin dn w w',
  pipes_open from w ->
  outcome_world (parse_stages fuel toks cin dn w) = Some w' ->
  pipes_open from w'.
Proof.
  induction fuel as [|fuel IH]; intros toks cin dn w w' Hopen;
    rewrite parse_stages_unfold;
    (destruct (read_argv toks) as [args rest|e]; [|by intros [= <-]]);
    (destruct rest as [|op rest]; [by intros [= <-]|]);
    (destruct (is_pipe_token (Some op)); [|by intros [= <-]]);
    (destruct (S (length _) <? PROCESS_MAX)%nat; [|done]);
    (destruct (pipe_procs _ _) as [[[[out err] next_in] w1]|] eqn:Hpipe;
       [|done]);
    [done|].
  apply pipe_procs_inv in Hpipe as [Hpipe _].
  apply IH. by eapply sys_pipe_pipes_open.
Qed.

Lemma read_argv_error toks e :
  read_argv toks = ArgvError e -> e = MissingCommand \/ e = TooManyArguments.
Proof.
  unfold read_argv.
  destruct (read_argv_from toks 0) as [[[|a args] rest]|];
    intros [= <-]; auto.
Qed.

Lemma parse_stages_error fuel : forall toks cin dn w e w',
  parse_stages fuel toks cin dn w = Fail e w' ->
  e = MissingCommand \/ e = TooManyArguments.
Proof.
  induction fuel as [|fuel IH]; intros toks cin dn w e w';
    rewrite parse_stages_unfold;
    (destruct (read_argv toks) as [args rest|e0] eqn:Hargv;
       [|intros [= <- _]; by eapply read_argv_error]);
    (destruct rest as [|op rest]; [done|]);
    (destruct (is_pipe_token (Some op)); [|done]);
    (destruct (S (length _) <? PROCESS_MAX)%nat; [|done]);
    (destruct (pipe_procs _ _) as [[[[out err] next_in] w1]|]; [|done]);
    [done|apply IH].
Qed.

(** X7. When [parse_command] returns -1, everything it has opened is still
    open in the shell: every descriptor that was open before is open on
    the same object, both ends of every pipe created for the line are
    open, and when the error is the misplaced redirection so is the
    descriptor of the output file, which has been created or truncated.
    The descriptor limit and the permissions are unchanged, and no other
    file is touched. *)
Theorem parse_error_leaks (cmdline : string) (w : world) (e : parse_error)
    (w' : world) :
  parse_command cmdline w = Fail e w' ->
  fdt w ⊆ fdt w' /\
  fd_limit w' = fd_limit w /\ denied w' = denied w /\
  pipes_open (npipes w) w' /\
  (e = MisplacedRedirection ->
   exists path fd,
     fdt w !! fd = None /\ fdt w' !! fd = Some (OutFile path) /\
     files w' = <[path := EmptyString]> (files w)) /\
  (e <> MisplacedRedirection -> files w' = files w).
Proof.
  unfold parse_command. destruct (read_tokens cmdline) as [toks|]; [|done].
  destruct (parse_tokens toks w) as [| e0 w0 | | |] eqn:Hparse; try done.
  intros [= -> ->]. revert Hparse.
  assert (Hinit : pipes_open (npipes w) w) by (intros k Hk; lia).
  unfold parse_tokens. destruct toks as [|t toks].
  { intros [= <- <-]. by split_and!. }
  pose proof (parse_stages_grows (length (t :: toks)) (t :: toks)
                STDIN_FILENO [] w) as Hgrows.
  pose proof (parse_stages_pipes (npipes w) (length (t :: toks)) (t :: toks)
                STDIN_FILENO [] w) as Hpipes.
  destruct (parse_stages _ _ _ _ _) as [p w1|e1 w1| | |] eqn:Hstages;
    try done.
  2:{ intros [= -> ->].
      destruct (Hgrows w' eq_refl) as (Hsub & Hfiles & Hdenied & Hlimit & _).
      specialize (Hpipes w' Hinit eq_refl).
      apply parse_stages_error in Hstages.
      split_and!; try done. intros ->. by destruct Hstages. }
  destruct (Hgrows w1 eq_refl) as (Hsub & Hfiles & Hdenied & Hlimit & _).
  specialize (Hpipes w1 Hinit eq_refl). clear Hgrows.
  unfold parse_redirect, terminate_procs.
  destruct (is_out_redirect_token (head (tok_iter p)));
    [|by destruct (length _ <? PROCESS_MAX)%nat].
  destruct (tok_iter p) as [|op [|path after]];
    [by intros [= <- <-]|by intros [= <- <-]|].
  unfold redirect_proc_out.
  destruct (sys_open path w1) as [[fd w2]|] eqn:Hopen; [|by intros [= <- <-]].
  destruct (is_pipe_token (head after));
    [|by destruct (length _ <? PROCESS_MAX)%nat].
  intros [= <- <-]. apply sys_open_inv in Hopen as [Hfd ->]. simpl.
  assert (Hfresh : fdt w !! fd = None).
  { destruct (fdt w !! fd) as [f|] eqn:Hf; [|done].
    eapply lookup_weaken in Hf; [|exact Hsub]. congruence. }
  split_and!; try done.
  - transitivity (fdt w1); [done|]. by apply insert_subseteq.
  - apply (pipes_open_weaken _ w1); [simpl; by apply insert_subseteq|done|done].
  - intros _. exists path, fd. rewrite Hfiles. split; [done|].
    split; [apply lookup_insert_eq|done].
Qed.

Lemma parse_error_leaks_witness :
  pipes_open 0
    (World (<[4 := PipeWrite 0]> (<[3 := PipeRead 0]> (fdt (fresh_world 16))))
           16 ∅ ∅ 1).
Proof.
  pose (w' := World (<[4 := PipeWrite 0]> (<[3 := PipeRead 0]>
                       (fdt (fresh_world 16)))) 16 ∅ ∅ 1).
  assert (Hparse : parse_command "ls | > f" (fresh_world 16)
                   = Fail MissingCommand w') by (vm_compute; reflexivity).
  destruct (parse_error_leaks _ _ _ _ Hparse) as (_ & _ & _ & Hopen & _).
  exact Hopen.
Defined.

(** ** Redirection to a file, and a pipe that cannot be created *)

Lemma accepted_then_last pre w procs w1 tail :
  parse_tokens pre w = Ok procs w1 ->
  no_redirect pre ->
  is_arg (head tail) = false ->
  exists p,
    procs = completed p ++
            [Process (cur_argv p) (cur_in p) STDOUT_FILENO STDERR_FILENO] /\
    S (length (completed p)) < PROCESS_MAX /\
    parse_tokens (pre ++ tail) w
    = match after_argv (cur_argv p) tail (cur_in p) (completed p) w1 with
      | Ok p' w' => parse_redirect p' w'
      | Fail e w' => Fail e w'
      | Exited => Exited
      | Undefined => Undefined
      | InvalidFree _ _ => Undefined
      end.
Proof.
  intros Hpre Hnone Htail.
  destruct (accepted_loop pre w procs w1 Hpre Hnone)
    as (p & Hloop & Hend & Hroom & Hprocs).
  exists p. split; [done|]. split; [done|]. unfold parse_tokens.
  destruct pre as [|t pre']; [done|].
  change (parse_stages (length ((t :: pre') ++ tail)) ((t :: pre') ++ tail))
    with (parse_loop ((t :: pre') ++ tail)).
  by rewrite (parse_loop_app tail _ _ _ _ _ _ _ (Nat.le_refl _) Hloop Hend Htail).
Qed.

(** X8. A redirect operator after an accepted pipeline, followed by a
    token and then by anything that does not start with a pipe operator:
    the token is opened as the output file, whatever it is.  When the file
    opens, the line passes the tests that are left: the same stages are
    stored, the last one writing to the file, its error going there too
    for the operator with '&', the tokens after the path are ignored, and
    the function gets to its call of [free].  When the file does not open,
    the function returns -1 with [CannotOpenOutputFile]. *)
Theorem redirect_to_file (cmdline : string) (w : world)
    (pre : list string) (op path : string) (more : list string)
    (procs : list process) (w1 : world) :
  read_tokens cmdline = Tokens (pre ++ op :: path :: more) ->
  parse_tokens pre w = Ok procs w1 ->
  no_redirect pre ->
  is_out_redirect_token (Some op) = true ->
  is_pipe_token (head more) = false ->
  exists front lst,
    procs = front ++ [lst] /\
    fd_out lst = STDOUT_FILENO /\ fd_err lst = STDERR_FILENO /\
    parse_command cmdline w
    = match sys_open path w1 with
      | Some (fd, w2) =>
          InvalidFree
            (front ++
             [Process (argv lst) (fd_in lst) fd
                      (if redirect_err_of op then fd else STDERR_FILENO)]) w2
      | None => Fail CannotOpenOutputFile w1
      end.
Proof.
  intros Htoks Hpre Hnone Hop Hmore.
  destruct (redirect_not_pipe op Hop) as [Hpipe Harg].
  destruct (accepted_then_last pre w procs w1 (op :: path :: more) Hpre Hnone Harg)
    as (p & Hprocs & Hroom & Hparse).
  exists (completed p),
         (Process (cur_argv p) (cur_in p) STDOUT_FILENO STDERR_FILENO).
  split; [done|]. split; [done|]. split; [done|].
  unfold parse_command. rewrite Htoks, Hparse.
  unfold after_argv. rewrite Hpipe. unfold parse_redirect.
  cbn [tok_iter completed cur_argv cur_in head]. rewrite Hop.
  unfold redirect_proc_out.
  destruct (sys_open path w1) as [[fd w2]|]; [|done].
  rewrite Hmore. unfold terminate_procs.
  rewrite length_app. simpl.
  by rewrite (proj2 (Nat.ltb_lt _ PROCESS_MAX))
    by (rewrite Nat.add_comm; exact Hroom).
Qed.

Lemma redirect_to_file_witness :
  exists w2,
    parse_command "ls | wc >& out and more" (fresh_world 16)
    = InvalidFree [Process ["ls"] 0 4 2; Process ["wc"] 3 5 5] w2.
Proof.
  pose (w1 := World (<[4 := PipeWrite 0]> (<[3 := PipeRead 0]>
                       (fdt (fresh_world 16)))) 16 ∅ ∅ 1).
  assert (Hpre : parse_tokens ["ls"; "|"; "wc"] (fresh_world 16)
                 = Ok [Process ["ls"] 0 4 2; Process ["wc"] 3 1 2] w1)
    by (vm_compute; reflexivity).
  destruct (redirect_to_file "ls | wc >& out and more" (fresh_world 16)
              ["ls"; "|"; "wc"] ">&" "out" ["and"; "more"] _ w1
              eq_refl Hpre ltac:(repeat constructor) eq_refl eq_refl)
    as (front & lst & Hprocs & _ & _ & Hparse).
  change [Process ["ls"] 0 4 2; Process ["wc"] 3 1 2]
    with ([Process ["ls"] 0 4 2] ++ [Process ["wc"] 3 1 2]) in Hprocs.
  apply app_inj_tail in Hprocs as [<- <-].
  eexists. rewrite Hparse. vm_compute. reflexivity.
Defined.

(** X9. A pipe operator after an accepted pipeline when the pipe cannot be
    created: the shell exits, before it looks at what follows the
    operator. *)
Theorem pipe_failure_exits (cmdline : string) (w : world)
    (pre : list string) (op : string) (tail : list string)
    (procs : list process) (w1 : world) (statuses : list Z) (sc : schedule) :
  read_tokens cmdline = Tokens (pre ++ op :: tail) ->
  parse_tokens pre w = Ok procs w1 ->
  no_redirect pre ->
  is_pipe_token (Some op) = true ->
  sys_pipe w1 = None ->
  parse_command cmdline w = Exited /\
  main_turn cmdline statuses sc w = ShellExited.
Proof.
  intros Htoks Hpre Hnone Hop Hpipe.
  assert (Hparse : parse_command cmdline w = Exited).
  { unfold parse_command. rewrite Htoks.
    destruct (accepted_then_last pre w procs w1 (op :: tail) Hpre Hnone
                (proj1 (is_arg_not_pipe_conv op Hop))) as (p & _ & Hroom & ->).
    unfold after_argv, pipe_procs. rewrite Hop, Hpipe.
    by rewrite (proj2 (Nat.ltb_lt _ _) Hroom). }
  split; [done|]. unfold main_turn. by rewrite Hparse.
Qed.

Lemma pipe_failure_exits_witness :
  parse_command "ls |& |" (fresh_world 4) = Exited /\
  main_turn "ls |& |" [0; 0; 0; 0; 0; 0; 0; 0]%Z (Schedule [] [])
            (fresh_world 4) = ShellExited.
Proof.
  apply (pipe_failure_exits _ _ ["ls"] "|&" ["|"]
           [Process ["ls"] 0 1 2] (fresh_world 4)).
  - reflexivity.
  - vm_compute. reflexivity.
  - repeat constructor.
  - reflexivity.
  - vm_compute. reflexivity.
Defined.

(** ** The descriptor table of the shell after a run *)

Lemma spawn_table procs : forall fk t i pids children t',
  spawn procs fk t i = Spawned pids children t' ->
  t' = close_all procs t /\ length pids = length procs.
Proof.
  induction procs as [|proc later IH]; intros fk t i pids children t'; simpl.
  - by intros [= <- <- <-].
  - destruct fk as [|[pid|] fk]; try done.
    destruct (i <? PROCESS_MAX)%nat; [|done].
    destruct (spawn later fk _ (S i)) as [pids' children' t''| |] eqn:Hrec;
      try done.
    intros [= <- <- <-]. apply IH in Hrec as [-> Hlen].
    simpl. by rewrite Hlen.
Qed.

(** X10. When [run_procs] returns, the shell has closed the descriptors
    of every stage that are not its standard ones, and nothing else: its
    descriptor table is the one it was called with, without those
    descriptors. *)
Theorem shell_closes_stage_descriptors (procs : list process)
    (statuses statuses' : list Z) (sc : schedule)
    (children : list (positive * child_end)) (t t' : gmap nat ofile) :
  run_procs procs statuses sc t = Ran statuses' children t' ->
  (forall q fd, q ∈ procs -> fd ∈ nonstd_fds q -> t' !! fd = None) /\
  (forall fd, (forall q, q ∈ procs -> fd ∉ nonstd_fds q) ->
     t' !! fd = t !! fd).
Proof.
  intros Hrun. unfold run_procs in Hrun.
  destruct (spawn procs (forks sc) t 0) as [pids ch t1| |] eqn:Hspawn;
    try done.
  destruct (store _ _ _) as [statuses1|]; [|done].
  destruct (reap _ _ _ _); try done. injection Hrun as _ _ <-.
  apply spawn_table in Hspawn as [-> _]. split.
  - intros q fd Hq Hfd. by apply (close_all_closed _ _ q).
  - intros fd Hnone. by apply close_all_kept.
Qed.

Lemma shell_closes_stage_descriptors_witness :
  exists statuses' children,
    run_procs [Process ["ls"] 0 4 2; Process ["wc"] 3 5 2]
              [0; 0; 0; 0; 0; 0; 0; 0]%Z
              (Schedule [Some 10%positive; Some 11%positive]
                        [(11%positive, 0%Z); (10%positive, 256%Z)])
              (<[5 := OutFile "out"]> (<[4 := PipeWrite 0]>
                 (<[3 := PipeRead 0]> (fdt (fresh_world 16)))))
    = Ran statuses' children (fdt (fresh_world 16)).
Proof.
  pose (procs := [Process ["ls"] 0 4 2; Process ["wc"] 3 5 2]).
  pose (t := <[5 := OutFile "out"]> (<[4 := PipeWrite 0]>
               (<[3 := PipeRead 0]> (fdt (fresh_world 16))))).
  assert (Hrun : exists st ch t',
            run_procs procs [0; 0; 0; 0; 0; 0; 0; 0]%Z
                      (Schedule [Some 10%positive; Some 11%positive]
                                [(11%positive, 0%Z); (10%positive, 256%Z)])
                      t
            = Ran st ch t')
    by (do 3 eexists; vm_compute; reflexivity).
  destruct Hrun as (st & ch & t' & Hrun).
  exists st, ch. fold procs. fold t. rewrite Hrun. f_equal.
  destruct (shell_closes_stage_descriptors _ _ _ _ _ _ _ Hrun)
    as [Hclosed Hkept].
  apply map_eq. intros fd.
  destruct (decide (fd = 3)) as [->|H3];
    [exact (Hclosed (Process ["wc"] 3 5 2) 3
              ltac:(apply list_elem_of_further, list_elem_of_here)
              ltac:(vm_compute; apply list_elem_of_here))|].
  destruct (decide (fd = 4)) as [->|H4];
    [exact (Hclosed (Process ["ls"] 0 4 2) 4
              ltac:(apply list_elem_of_here)
              ltac:(vm_compute; apply list_elem_of_here))|].
  destruct (decide (fd = 5)) as [->|H5];
    [exact (Hclosed (Process ["wc"] 3 5 2) 5
              ltac:(apply list_elem_of_further, list_elem_of_here)
              ltac:(vm_compute; apply list_elem_of_further,
                    list_elem_of_here))|].
  rewrite Hkept.
  - unfold t. by rewrite !lookup_insert_ne by done.
  - intros q Hq Hfd. apply elem_of_nonstd_fds in Hfd.
    apply elem_of_cons in Hq as [->|Hq];
      [|apply list_elem_of_singleton in Hq as ->];
      simpl in Hfd; unfold STDIN_FILENO, STDOUT_FILENO, STDERR_FILENO in Hfd;
      lia.
Defined.

(** ** A fork that fails, a child that does not terminate *)

Lemma spawn_fork_failed procs : forall pids rest t i,
  length pids < length procs ->
  i + length procs <= PROCESS_MAX ->
  (forall pid, head rest <> Some (Some pid)) ->
  exists children,
    spawn procs ((Some <$> pids) ++ rest) t i = ForkFailed children /\
    children.*1 = pids.
Proof.
  induction procs as [|proc later IH]; intros pids rest t i Hlen Hcap Hrest;
    simpl in Hlen, Hcap; [lia|].
  destruct pids as [|pid pids]; [simpl|rewrite fmap_cons; cbn [app spawn]].
  - exists []. split; [|done].
    destruct rest as [|[pid|] rest]; try done. by destruct (Hrest pid).
  - rewrite (proj2 (Nat.ltb_lt i PROCESS_MAX)) by lia.
    destruct (IH pids rest (close_nonstd_fds proc t) (S i))
      as (children & -> & Hfst); [simpl in Hlen; lia|lia|done|].
    eexists. split; [done|]. rewrite fmap_cons. by rewrite Hfst.
Qed.

(** X11. When [fork] fails after some children have been forked, the
    shell exits at once: [run_procs] neither waits for the children it has
    forked nor stores a status. *)
Theorem fork_failure_exits (procs : list process) (statuses : list Z)
    (sc : schedule) (t : gmap nat ofile) (pids : list positive)
    (rest : list (option positive)) :
  length pids < length procs ->
  length procs <= PROCESS_MAX ->
  forks sc = (Some <$> pids) ++ rest ->
  (forall pid, head rest <> Some (Some pid)) ->
  exists children,
    run_procs procs statuses sc t = RunExited children /\
    children.*1 = pids.
Proof.
  intros Hlen Hcap Hforks Hrest. unfold run_procs. rewrite Hforks.
  destruct (spawn_fork_failed procs pids rest t 0 Hlen ltac:(lia) Hrest)
    as (children & -> & Hfst).
  by exists children.
Qed.

Lemma fork_failure_exits_witness :
  exists children,
    run_procs [Process ["ls"] 0 4 2; Process ["wc"] 3 1 2] [0; 0; 0]%Z
              (Schedule [Some 7%positive; None] [(7%positive, 0%Z)])
              (<[4 := PipeWrite 0]> (<[3 := PipeRead 0]>
                 (fdt (fresh_world 16))))
    = RunExited children /\
    children.*1 = [7%positive].
Proof.
  apply (fork_failure_exits _ _ (Schedule [Some 7%positive; None] _) _
           [7%positive] [None]).
  - simpl. lia.
  - vm_compute. lia.
  - reflexivity.
  - intros pid H. discriminate H.
Defined.

Lemma reap_blocked i : forall pids zs statuses pid,
  i <= length pids -> i <= length statuses ->
  pid ∈ take i pids -> pid ∉ zs.*1 ->
  reap i pids zs statuses = Blocked.
Proof.
  induction i as [|i IH]; intros pids zs statuses pid Hi Hcap Hin Hnot.
  - rewrite take_0 in Hin. by apply elem_of_nil in Hin.
  - simpl. destruct (lookup_lt_is_Some_2 pids i ltac:(lia)) as [pid' Hpid].
    rewrite Hpid.
    destruct (waitpid pid' zs) as [[status zs1]|] eqn:Hwait; [|done].
    rewrite store_in_range by lia.
    apply waitpid_inv in Hwait as (Hin' & Hother & _).
    assert (Hne : pid <> pid').
    { intros ->. apply Hnot. apply list_elem_of_fmap. by exists (pid', status). }
    rewrite (take_S_r _ _ _ Hpid) in Hin.
    apply elem_of_app in Hin as [Hin|Hin%list_elem_of_singleton]; [|done].
    apply (IH _ _ _ pid); [lia|rewrite length_insert; lia|done|].
    intros [[q s] [Hq Hqs]]%list_elem_of_fmap. simpl in Hq. subst q.
    apply Hnot. apply list_elem_of_fmap. exists (pid, s). split; [done|].
    by apply Hother.
Qed.

(** X12. When every fork succeeds and one of the children never
    terminates, [run_procs] does not return: the shell stays in a call of
    [waitpid], with all the stages forked. *)
Theorem wait_blocks (procs : list process) (statuses : list Z)
    (sc : schedule) (t : gmap nat ofile) (pids : list positive)
    (pid : positive) :
  length procs < length statuses ->
  length procs <= PROCESS_MAX ->
  length pids = length procs ->
  take (length procs) (forks sc) = Some <$> pids ->
  pid ∈ pids ->
  pid ∉ (ended sc).*1 ->
  exists children,
    run_procs procs statuses sc t = RunBlocked children /\
    children.*1 = pids.
Proof.
  intros Hcap Hmax Hlen Hforks Hin Hnot. unfold run_procs.
  rewrite <- (take_drop (length procs) (forks sc)), Hforks.
  destruct (spawn_all procs pids (drop (length procs) (forks sc)) t 0 Hlen
              ltac:(lia)) as (children & t' & -> & Hfst).
  rewrite store_in_range by lia.
  rewrite (reap_blocked _ _ _ _ pid); [by exists children|lia| | |done].
  - rewrite length_insert. lia.
  - by rewrite firstn_all.
Qed.

Lemma wait_blocks_witness :
  exists children,
    run_procs [Process ["yes"] 0 4 2; Process ["head"] 3 1 2] [0; 0; 0]%Z
              (Schedule [Some 7%positive; Some 8%positive] [(8%positive, 0%Z)])
              (<[4 := PipeWrite 0]> (<[3 := PipeRead 0]>
                 (fdt (fresh_world 16))))
    = RunBlocked children /\
    children.*1 = [7%positive; 8%positive].
Proof.
  apply (wait_blocks _ _ (Schedule [Some 7%positive; Some 8%positive] _) _
           [7%positive; 8%positive] 7%positive).
  - simpl. lia.
  - vm_compute. lia.
  - reflexivity.
  - reflexivity.
  - apply list_elem_of_here.
  - vm_compute. intros H. apply list_elem_of_singleton in H. discriminate H.
Defined.

(** ** What a child holds: any stages, any table *)

Lemma close_all_Some ps : forall t fd f,
  close_all ps t !! fd = Some f -> t !! fd = Some f.
Proof.
  induction ps as [|p ps IH]; intros t fd f; simpl; [done|].
  intros Hfd%IH. rewrite close_nonstd_fds_lookup in Hfd.
  by case_decide.
Qed.

(** X13. Whatever stages [run_procs] is given and whatever the descriptor
    table of the shell is, a child that reaches [execvp] runs the
    arguments of its stage, and above the standard descriptors it holds
    only descriptors that the shell held, on the same objects, and none
    that is the input, output or error of any stage, its own included. *)
Theorem child_holds_no_stage_descriptor (procs : list process)
    (statuses : list Z) (sc : schedule) (t : gmap nat ofile)
    (i : nat) (pid : positive) (args : list string) (tc : gmap nat ofile) :
  children_of (run_procs procs statuses sc t) !! i
    = Some (pid, Execvp args tc) ->
  (exists proc, procs !! i = Some proc /\ args = argv proc) /\
  forall fd, STDERR_FILENO < fd ->
    (forall f, tc !! fd = Some f -> t !! fd = Some f) /\
    (forall q, q ∈ procs -> fd ∈ nonstd_fds q -> tc !! fd = None).
Proof.
  intros Hchild. apply run_procs_children in Hchild.
  apply spawn_children in Hchild as (proc & Hproc & Hce).
  unfold child_branch in Hce.
  change (foldl _ ?t ?ps) with (close_all ps t) in Hce.
  rewrite <- close_all_app in Hce. unfold exec_proc, sys_dup2 in Hce.
  set (T := close_all (take i procs ++ drop (S i) procs) t) in Hce.
  destruct (T !! fd_in proc) as [f_in|]; [|done].
  destruct (<[STDIN_FILENO := f_in]> T !! fd_out proc) as [f_out|]; [|done].
  destruct (<[STDOUT_FILENO := f_out]> (<[STDIN_FILENO := f_in]> T)
              !! fd_err proc) as [f_err|]; [|done].
  injection Hce as -> ->. split; [by exists proc|].
  intros fd Hgt. rewrite close_nonstd_fds_lookup.
  unfold STDIN_FILENO, STDOUT_FILENO, STDERR_FILENO in *.
  split.
  - intros f. case_decide; [done|]. rewrite !lookup_insert_ne by lia.
    apply close_all_Some.
  - intros q Hq Hin. case_decide as Hown; [done|].
    rewrite !lookup_insert_ne by lia.
    apply list_elem_of_lookup in Hq as [j Hj].
    destruct (decide (j = i)) as [->|Hne]; [congruence|].
    apply (close_all_closed _ _ q); [by eapply others_elem_of|done].
Qed.

Lemma child_holds_no_stage_descriptor_witness :
  (<[2 := Inherited 2]> (<[1 := PipeWrite 0]> {[0 := Inherited 0]})
     : gmap nat ofile) !! 3 = None.
Proof.
  pose (tc := <[2 := Inherited 2]> (<[1 := PipeWrite 0]> {[0 := Inherited 0]})
              : gmap nat ofile).
  pose (src := Process ["ls"] 0 4 2).
  pose (dest := Process ["wc"] 3 1 2).
  assert (Hchild :
    children_of
      (run_procs [src; dest] [0; 0; 0]%Z
         (Schedule [Some 7%positive; Some 8%positive]
                   [(7%positive, 0%Z); (8%positive, 0%Z)])
         (<[4 := PipeWrite 0]> (<[3 := PipeRead 0]> (fdt (fresh_world 16)))))
      !! 0 = Some (7%positive, Execvp ["ls"] tc))
    by (vm_compute; reflexivity).
  destruct (child_holds_no_stage_descriptor _ _ _ _ _ _ _ _ Hchild)
    as [_ Hheld].
  destruct (Hheld 3 ltac:(vm_compute; lia)) as [_ Hnone].
  apply (Hnone dest).
  - apply list_elem_of_further, list_elem_of_here.
  - vm_compute. apply list_elem_of_here.
Defined.

(** ** The arrays of [run_procs] *)

Lemma spawn_defined procs : forall fk t i,
  i + length procs <= PROCESS_MAX -> spawn procs fk t i <> SpawnUndefined.
Proof.
  induction procs as [|proc later IH]; intros fk t i Hcap; simpl in *; [done|].
  destruct fk as [|[pid|] fk]; try done.
  rewrite (proj2 (Nat.ltb_lt i PROCESS_MAX)) by lia.
  specialize (IH fk (close_nonstd_fds proc t) (S i) ltac:(lia)).
  by destruct (spawn later fk _ (S i)).
Qed.

Lemma reap_defined i : forall pids zs statuses,
  i <= length pids -> i <= length statuses ->
  reap i pids zs statuses <> ReapUndefined.
Proof.
  induction i as [|i IH]; intros pids zs statuses Hi Hcap; simpl; [done|].
  destruct (lookup_lt_is_Some_2 pids i ltac:(lia)) as [pid ->].
  destruct (waitpid pid zs) as [[status zs1]|]; [|done].
  rewrite store_in_range by lia. apply IH; [lia|].
  rewrite length_insert. lia.
Qed.

(** X14. With at most [PROCESS_MAX] stages, and fewer stages than
    [statuses] has slots, [run_procs] stays within [pids] and [statuses]:
    every pid, every status and the sentinel are stored in range, whatever
    [fork] returns and whatever the children do. *)
Theorem run_procs_in_range (procs : list process) (statuses : list Z)
    (sc : schedule) (t : gmap nat ofile) :
  length procs < length statuses ->
  length procs <= PROCESS_MAX ->
  run_procs procs statuses sc t <> RunUndefined.
Proof.
  intros Hcap Hmax. unfold run_procs.
  pose proof (spawn_defined procs (forks sc) t 0 ltac:(lia)) as Hspawn.
  destruct (spawn procs (forks sc) t 0) as [pids children t'| |] eqn:Heq;
    try done.
  apply spawn_table in Heq as [_ Hlen].
  rewrite store_in_range by lia.
  pose proof (reap_defined (length pids) pids (ended sc)
                (<[length pids := (-1)%Z]> statuses) ltac:(lia)) as Hreap.
  rewrite length_insert in Hreap. specialize (Hreap ltac:(lia)).
  by destruct (reap _ _ _ _).
Qed.

Lemma run_procs_in_range_witness :
  run_procs [Process ["yes"] 0 4 2; Process ["head"] 3 1 2]
            (replicate PROCESS_MAX 0%Z)
            (Schedule [Some 7%positive; None] [])
            (<[4 := PipeWrite 0]> (<[3 := PipeRead 0]> (fdt (fresh_world 16))))
  <> RunUndefined.
Proof.
  apply run_procs_in_range.
  - vm_compute. lia.
  - vm_compute. lia.
Defined.
